(** * Sunflower Land contracts: game-state engine, withdrawal handler, token

    A shallow embedding of

    - [src/domain/game/lib/transforms.ts] ([makeGame], [makeInventory]),
    - the withdraw handler and its Joi schema ([VALID_ITEMS], [VALID_IDS],
      [handler]),
    - the constructor of [contracts/Token.sol],
    - the save pipeline ([processActions], [save]) whose implementation file
      is not part of the sources; it is modelled from the specification, and
      the cases of the repository's jest suite for [save.ts] are its test
      data.

    JS objects used as dictionaries are [gmap]s, thrown errors are values of
    a [result] type, and the outside world (repository, event store, signer)
    is an explicit state that the handlers thread through. *)

From Stdlib Require Import ZArith Lia Bool Ascii String.
From Stdlib Require Import DecimalString.
From stdpp Require Import gmap strings list fin_maps.

Local Open Scope string_scope.
Local Open Scope Z_scope.

(** ** Results of fallible code *)

Inductive result (E A : Type) : Type :=
| Ok (a : A)
| Err (e : E).
Arguments Ok {E A} a.
Arguments Err {E A} e.

Definition rbind {E A B} (r : result E A) (k : A -> result E B) : result E B :=
  match r with
  | Ok a => k a
  | Err e => Err e
  end.

Notation "x <-! r ; k" := (rbind r (fun x => k))
  (at level 100, r at next level, right associativity, only parsing).

Definition is_ok {E A} (r : result E A) : bool :=
  match r with Ok _ => true | Err _ => false end.

(** ** Decimals

    [Decimal] values of decimal.js-light are modelled as fixed-point numbers
    with 18 fractional digits: the integer [d] stands for [d / 10^18]. This
    is the precision of the on-chain token, so a wei amount is the
    representation of its [ether] value. The model stands in for the library
    on plain decimal literals of at most 18 fractional digits, which is what
    the farm documents and the chain hold: a literal in exponent notation,
    which the library reads, is refused here, and digits past the 18th, which
    the library keeps, are rounded. *)

Abbreviation Decimal := Z (only parsing).

Definition DECIMAL_PLACES : Z := 18.
Definition ONE : Decimal := 10 ^ DECIMAL_PLACES.

(** [new Decimal(n)] for an integer [n]. *)
Definition ofInt (n : Z) : Decimal := n * ONE.

Definition digit_of (c : ascii) : option Z :=
  let n := Z.of_nat (nat_of_ascii c) in
  if (48 <=? n) && (n <=? 57) then Some (n - 48) else None.

Fixpoint digits_value (acc : Z) (s : string) : option Z :=
  match s with
  | EmptyString => Some acc
  | String c r =>
      match digit_of c with
      | Some d => digits_value (10 * acc + d) r
      | None => None
      end
  end.

(** Splits a literal at its first dot. *)
Fixpoint split_dot (s : string) : string * option string :=
  match s with
  | EmptyString => (EmptyString, None)
  | String c r =>
      if Ascii.eqb c "."%char then (EmptyString, Some r)
      else let '(a, b) := split_dot r in (String c a, b)
  end.

(** Rounding of [n / d] to the nearest integer, ties to even ([d > 0]). *)
Definition round_half_even (n d : Z) : Z :=
  let q := n / d in
  let r := n mod d in
  if 2 * r <? d then q
  else if d <? 2 * r then q + 1
  else if Z.even q then q else q + 1.

(** The value of [k] fractional digits [n], in units of [10^-18]; digits past
    the 18th are rounded half-even. *)
Definition scale_fraction (n : Z) (k : Z) : Z :=
  if k <=? DECIMAL_PLACES then n * 10 ^ (DECIMAL_PLACES - k)
  else round_half_even n (10 ^ (k - DECIMAL_PLACES)).

Definition parseUnsigned (s : string) : option Decimal :=
  match split_dot s with
  | (ip, None) =>
      if decide (ip = EmptyString) then None
      else i ← digits_value 0 ip; Some (i * ONE)
  | (ip, Some fp) =>
      if decide (ip = EmptyString ∧ fp = EmptyString) then None
      else
        i ← digits_value 0 ip;
        f ← digits_value 0 fp;
        Some (i * ONE + scale_fraction f (Z.of_nat (String.length fp)))
  end.

(** [new Decimal(s)] on a string: an optional minus sign, then digits with
    an optional fraction, or a dot followed by digits. [None] stands for the
    library's [DecimalError]. Exponent notation is not part of the model. *)
Definition parseDecimal (s : string) : option Decimal :=
  match s with
  | String "-"%char r => Z.opp <$> parseUnsigned r
  | _ => parseUnsigned s
  end.

Definition string_of_nat_Z (n : Z) : string :=
  NilZero.string_of_uint (N.to_uint (Z.to_N n)).

Fixpoint strip_zeros_rev (rev_digits : list ascii) : list ascii :=
  match rev_digits with
  | "0"%char :: r => strip_zeros_rev r
  | _ => rev_digits
  end.

Definition pad_left (k : nat) (s : string) : string :=
  string_of_list_ascii (replicate (k - String.length s)%nat "0"%char) +:+ s.

(** The fractional digits of [f / 10^18] without trailing zeros. *)
Definition fraction_digits (f : Z) : string :=
  string_of_list_ascii
    (rev (strip_zeros_rev
            (rev (list_ascii_of_string (pad_left 18 (string_of_nat_Z f)))))).

(** [d.toString()], in plain (non-exponential) notation. *)
Definition decimalToString (d : Decimal) : string :=
  let a := Z.abs d in
  let ip := string_of_nat_Z (a / ONE) in
  let fp := fraction_digits (a mod ONE) in
  let body := if decide (fp = EmptyString) then ip else ip +:+ "." +:+ fp in
  if d <? 0 then "-" +:+ body else body.

(** A wei amount as sent by the chain: a string of decimal digits. *)
Definition parseWei (s : string) : option Z :=
  if decide (s = EmptyString) then None else digits_value 0 s.

(** [fromWei(amount, unit)] followed by [new Decimal]: the units the game uses
    are [wei] (the amount counts whole items) and [ether] (18 decimals). *)
Inductive Unit := wei | ether.

Definition fromWei (amount : Z) (unit : Unit) : Decimal :=
  match unit with
  | wei => amount * ONE
  | ether => amount
  end.

(** ** Game types ([domain/game/types]) *)

Abbreviation ItemName := string (only parsing).

Record Tree := mkTree { choppedAt : Z; wood : Decimal }.

Record FieldItem := mkField { plantedAt : Z; fieldItem : ItemName }.

Record GameState := mkGame {
  balance : Decimal;
  inventory : gmap string Decimal;
  stock : gmap string Decimal;
  fields : gmap Z FieldItem;
  trees : gmap Z Tree
}.

(** What [new Decimal(x)] is applied to: a stored decimal string, or a value
    that is a [Decimal] already. *)
Inductive DecimalSource :=
| FromString (s : string)
| FromDecimal (d : Decimal).

Definition newDecimal (x : DecimalSource) : option Decimal :=
  match x with
  | FromString s => parseDecimal s
  | FromDecimal d => Some d
  end.

Record DbTree := mkDbTree { dbChoppedAt : Z; dbWood : DecimalSource }.

(** [Account["gameState"]]: the game state as the repository holds it, with
    quantities as strings; [trees] is missing in documents written by a
    version without trees. *)
Record StoredGameState := mkStored {
  sBalance : string;
  sInventory : gmap string string;
  sStock : gmap string string;
  sFields : gmap Z FieldItem;
  sTrees : option (gmap Z DbTree)
}.

Record Recipe := mkRecipe {
  ingredients : list (ItemName * Decimal);
  sflPrice : Decimal;
  craftable : bool
}.

Record Crop := mkCrop { harvestsInto : ItemName; growSeconds : Z }.

(** The static tables the sources import and that are not part of them:
    [KNOWN_IDS] (in key order), [getItemUnit], [INITIAL_TREES], the key lists
    of [TOOLS], [LimitedItems] and [RESOURCES], and the tables of the
    specification's catalog. *)
Record Catalog := mkCatalog {
  KNOWN_IDS : list (ItemName * Z);
  getItemUnit : option ItemName -> Unit;
  INITIAL_TREES : gmap Z Tree;
  TOOLS : list ItemName;
  LimitedItems : list ItemName;
  RESOURCES : list ItemName;
  recipes : gmap string Recipe;
  crops : gmap string Crop;
  sellPrices : gmap string Decimal;
  nonSellable : list ItemName;
  FIELD_COUNT : Z;
  TREE_WOOD : Decimal;
  TREE_RECOVERY_SECONDS : Z;
  redeem : GameState -> ItemName -> option GameState
}.

(** ** [lib/transforms.ts] *)

(** [new Decimal(quantities[itemName] || 0)]: the empty string is falsy. *)
Definition quantityOrZero (s : string) : option Decimal :=
  if decide (s = EmptyString) then Some 0 else parseDecimal s.

(** The [reduce] over [Object.keys] that converts every entry; it throws as
    soon as one [new Decimal] does. *)
Definition convertQuantities (m : gmap string string) : option (gmap string Decimal) :=
  if decide (map_Forall (fun _ s => is_Some (quantityOrZero s)) m)
  then Some (omap quantityOrZero m)
  else None.

Definition convertTree (t : DbTree) : option Tree :=
  w ← newDecimal (dbWood t); Some (mkTree (dbChoppedAt t) w).

Definition initialDbTree (t : Tree) : DbTree :=
  mkDbTree (choppedAt t) (FromDecimal (wood t)).

(** [gameState.trees || INITIAL_TREES] *)
Definition dbTreesOf (c : Catalog) (gameState : StoredGameState) : gmap Z DbTree :=
  match sTrees gameState with
  | Some t => t
  | None => initialDbTree <$> INITIAL_TREES c
  end.

Definition convertTrees (m : gmap Z DbTree) : option (gmap Z Tree) :=
  if decide (map_Forall (fun _ t => is_Some (convertTree t)) m)
  then Some (omap convertTree m)
  else None.

Definition makeGame (c : Catalog) (gameState : StoredGameState) : option GameState :=
  inv ← convertQuantities (sInventory gameState);
  stk ← convertQuantities (sStock gameState);
  trs ← convertTrees (dbTreesOf c gameState);
  bal ← parseDecimal (sBalance gameState);
  Some (mkGame bal inv stk (sFields gameState) trs).

(** [Object.keys(KNOWN_IDS)] *)
Definition inventoryItems (c : Catalog) : list ItemName := (KNOWN_IDS c).*1.

(** One step of the [reduce] in [makeInventory]. An index past the end of
    [inventoryItems] reads [undefined], which as a property key is the
    string "undefined". *)
Definition makeInventoryStep (c : Catalog)
    (items : option (gmap string Decimal)) (entry : nat * string)
    : option (gmap string Decimal) :=
  items ← items;
  let name := inventoryItems c !! entry.1 in
  let unit := getItemUnit c name in
  amount ← parseWei entry.2;
  let value := fromWei amount unit in
  if decide (value = 0) then Some items
  else Some (<[default "undefined" name := value]> items).

Definition makeInventory (c : Catalog) (amounts : list string)
    : option (gmap string Decimal) :=
  foldl (makeInventoryStep c) (Some ∅) (imap pair amounts).

(** ** Errors of the save path *)

(** Modelled from the spec: the errors of section 7 that the save path
    throws; the code that throws them is not among the sources. *)
Inductive Error :=
| FarmNotFound
| InvalidDocument
| TemporalOrder
| TemporalFuture
| TemporalPast
| TemporalRange
| TemporalGap
| TemporalDensity
| UnknownAction (tag : string)
| UnknownItem (item : ItemName)
| InsufficientInventory (item : ItemName)
| InsufficientBalance
| InsufficientStock (item : ItemName)
| NotCraftable (item : ItemName)
| NotSellable (item : ItemName)
| InvalidAmount
| FieldOccupied
| FieldEmpty
| NotGrown
| TreeNotRecovered
| InvalidIndex
| NotRedeemable (item : ItemName)
| SessionConflict
| ExternalUnavailable.

(** The messages the jest suite matches on; the remaining errors carry the
    tag of the specification's error list. *)
Definition message (e : Error) : string :=
  match e with
  | FarmNotFound => "Farm does not exist"
  | InvalidDocument => "DecimalError"
  | TemporalOrder => "Events must be in chronological order"
  | TemporalFuture => "Event cannot be in the future"
  | TemporalPast => "Event is too old"
  | TemporalRange => "Event range is too large"
  | TemporalGap => "Event fired too quickly"
  | TemporalDensity => "Too many events in a short time"
  | UnknownAction tag => "UnknownAction: " +:+ tag
  | UnknownItem item => "UnknownItem: " +:+ item
  | InsufficientInventory item => "InsufficientInventory: " +:+ item
  | InsufficientBalance => "InsufficientBalance"
  | InsufficientStock item => "InsufficientStock: " +:+ item
  | NotCraftable item => "This item is not craftable: " +:+ item
  | NotSellable item => "NotSellable: " +:+ item
  | InvalidAmount => "InvalidAmount"
  | FieldOccupied => "FieldOccupied"
  | FieldEmpty => "FieldEmpty"
  | NotGrown => "NotGrown"
  | TreeNotRecovered => "TreeNotRecovered"
  | InvalidIndex => "InvalidIndex"
  | NotRedeemable item => "NotRedeemable: " +:+ item
  | SessionConflict => "Concurrent save detected"
  | ExternalUnavailable => "ExternalUnavailable"
  end.

Global Instance Error_eq_dec : EqDecision Error.
Proof. solve_decision. Defined.

Definition isTemporal (e : Error) : bool :=
  match e with
  | TemporalOrder | TemporalFuture | TemporalPast
  | TemporalRange | TemporalGap | TemporalDensity => true
  | _ => false
  end.

(** ** Actions *)

(** The actions the jest suite submits, with [tree.chopped] and
    [item.redeemed] of the specification; [OtherAction] is a tag outside the
    closed set. *)
Inductive ActionBody :=
| ItemPlanted (index : Z) (item : ItemName)
| ItemHarvested (index : Z)
| TreeChopped (index : Z)
| ItemCrafted (item : ItemName) (amount : Z)
| ItemSell (item : ItemName) (amount : Z)
| ItemRedeemed (item : ItemName)
| OtherAction (tag : string).

(** [createdAt] is the ISO-8601 timestamp as milliseconds since the epoch. *)
Record Action := mkAction { createdAt : Z; body : ActionBody }.

(** ** Temporal gate *)

(** Modelled from the spec: the thresholds of the temporal checks, which
    section 4.3 asks to be named constants. [processActions] and its constants
    live in [save.ts], which is not among the sources. *)
Record Limits := mkLimits {
  MAX_FUTURE_MS : Z;
  MAX_AGE_MS : Z;
  MAX_RANGE_MS : Z;
  MIN_GAP_MS : Z;
  DENSITY_WINDOW_MS : Z;
  DENSITY_MAX_ACTIONS : nat
}.

(** The values section 4.3 of the specification gives. *)
Definition SPEC_LIMITS : Limits :=
  {| MAX_FUTURE_MS := 60 * 1000;
     MAX_AGE_MS := 5 * 60 * 1000;
     MAX_RANGE_MS := 2 * 60 * 1000;
     MIN_GAP_MS := 10;
     DENSITY_WINDOW_MS := 300;
     DENSITY_MAX_ACTIONS := 2%nat |}.

(** [actions[i].createdAt <= actions[i+1].createdAt] for every pair. *)
Fixpoint chronological (ts : list Z) : bool :=
  match ts with
  | a :: (b :: _) as rest => (a <=? b) && chronological rest
  | _ => true
  end.

(** [actions[i+1].createdAt - actions[i].createdAt >= gap] for every pair. *)
Fixpoint gapsAtLeast (gap : Z) (ts : list Z) : bool :=
  match ts with
  | a :: (b :: _) as rest => (gap <=? b - a) && gapsAtLeast gap rest
  | _ => true
  end.

(** The number of actions in the window of length [w] that starts at [t],
    the interval from [t] inclusive to [t + w] exclusive. *)
Definition inWindow (t w : Z) (ts : list Z) : nat :=
  length (filter (fun b => t <= b < t + w) ts).

(** Some window that starts at an action holds more than [n] actions. *)
Definition tooDense (w : Z) (n : nat) (ts : list Z) : bool :=
  existsb (fun a => (n <? inWindow a w ts)%nat) ts.

(** Modelled from the spec: the temporal checks of [processActions]
    ([save.ts] is not among the sources), in the order of section 4.3; the
    first check that fails gives the error, and an empty batch passes. *)
Definition temporalGate (L : Limits) (now : Z) (ts : list Z) : option Error :=
  match head ts, last ts with
  | Some first, Some final =>
      if negb (chronological ts) then Some TemporalOrder
      else if now + MAX_FUTURE_MS L <? final then Some TemporalFuture
      else if first <? now - MAX_AGE_MS L then Some TemporalPast
      else if MAX_RANGE_MS L <? final - first then Some TemporalRange
      else if negb (gapsAtLeast (MIN_GAP_MS L) ts) then Some TemporalGap
      else if tooDense (DENSITY_WINDOW_MS L) (DENSITY_MAX_ACTIONS L) ts
           then Some TemporalDensity
      else None
  | _, _ => None
  end.

(** ** Action dispatcher

    The event handlers are not among the sources. The transitions follow
    section 4.4 of the specification, with the checks in the order the
    section lists them; [amount] is the integer the client sends. *)

Definition qty (inv : gmap string Decimal) (name : ItemName) : Decimal :=
  default 0 (inv !! name).

(** Entries that reach zero are removed, never stored as zero. *)
Definition setQty (name : ItemName) (q : Decimal) (inv : gmap string Decimal)
    : gmap string Decimal :=
  if decide (q = 0) then delete name inv else <[name := q]> inv.

Definition addItem (name : ItemName) (a : Decimal) (inv : gmap string Decimal)
    : gmap string Decimal :=
  setQty name (qty inv name + a) inv.

Definition subItem (name : ItemName) (a : Decimal) (inv : gmap string Decimal)
    : result Error (gmap string Decimal) :=
  if qty inv name <? a then Err (InsufficientInventory name)
  else Ok (setQty name (qty inv name - a) inv).

Fixpoint subIngredients (amount : Z) (ings : list (ItemName * Decimal))
    (inv : gmap string Decimal) : result Error (gmap string Decimal) :=
  match ings with
  | [] => Ok inv
  | (name, cost) :: rest =>
      inv' <-! subItem name (cost * amount) inv;
      subIngredients amount rest inv'
  end.

(** Modelled from the spec: the handler of [item.planted], which is not
    among the sources. *)
Definition plant (c : Catalog) (state : GameState) (index : Z) (item : ItemName)
    (at_ : Z) : result Error GameState :=
  match crops c !! item with
  | None => Err (UnknownItem item)
  | Some _ =>
      inv <-! subItem item ONE (inventory state);
      if decide (is_Some (fields state !! index)) then Err FieldOccupied
      else if negb ((0 <=? index) && (index <? FIELD_COUNT c)) then Err InvalidIndex
      else Ok (mkGame (balance state) inv (stock state)
                 (<[index := mkField at_ item]> (fields state)) (trees state))
  end.

(** Modelled from the spec: the handler of [item.harvested], which is not
    among the sources. *)
Definition harvest (c : Catalog) (state : GameState) (index : Z) (at_ : Z)
    : result Error GameState :=
  match fields state !! index with
  | None => Err FieldEmpty
  | Some field =>
      match crops c !! fieldItem field with
      | None => Err (UnknownItem (fieldItem field))
      | Some crop =>
          if at_ <? plantedAt field + growSeconds crop * 1000 then Err NotGrown
          else Ok (mkGame (balance state)
                     (addItem (harvestsInto crop) ONE (inventory state))
                     (stock state) (delete index (fields state)) (trees state))
      end
  end.

(** Modelled from the spec: the handler of [tree.chopped], which is not
    among the sources. A tree without wood is refilled once it has
    recovered. *)
Definition chop (c : Catalog) (state : GameState) (index : Z) (at_ : Z)
    : result Error GameState :=
  inv <-! subItem "Axe" ONE (inventory state);
  match trees state !! index with
  | None => Err InvalidIndex
  | Some tree =>
      available <-!
        (if decide (wood tree = 0)
         then if at_ <? choppedAt tree + TREE_RECOVERY_SECONDS c * 1000
              then Err TreeNotRecovered else Ok (TREE_WOOD c)
         else Ok (wood tree));
      let rest := available - ONE in
      let tree' := mkTree (if decide (rest = 0) then at_ else choppedAt tree) rest in
      Ok (mkGame (balance state) (addItem "Wood" ONE inv) (stock state)
            (fields state) (<[index := tree']> (trees state)))
  end.

(** Modelled from the spec: the stock check of the craft handler, which is
    not among the sources. An item is sold from stock when the farm has a
    stock entry for it. *)
Definition takeStock (item : ItemName) (amount : Z) (stk : gmap string Decimal)
    : result Error (gmap string Decimal) :=
  match stk !! item with
  | None => Ok stk
  | Some supply =>
      if supply <? ofInt amount then Err (InsufficientStock item)
      else Ok (<[item := supply - ofInt amount]> stk)
  end.

(** Modelled from the spec: the handler of [item.crafted], which is not
    among the sources. *)
Definition craft (c : Catalog) (state : GameState) (item : ItemName) (amount : Z)
    : result Error GameState :=
  match recipes c !! item with
  | None => Err (UnknownItem item)
  | Some recipe =>
      if negb (craftable recipe) then Err (NotCraftable item)
      else
        inv <-! subIngredients amount (ingredients recipe) (inventory state);
        if balance state <? sflPrice recipe * amount then Err InsufficientBalance
        else
          stk <-! takeStock item amount (stock state);
          Ok (mkGame (balance state - sflPrice recipe * amount)
                (addItem item (ofInt amount) inv) stk
                (fields state) (trees state))
  end.

(** Modelled from the spec: the handler of [item.sell], which is not among
    the sources. *)
Definition sell (c : Catalog) (state : GameState) (item : ItemName) (amount : Z)
    : result Error GameState :=
  match sellPrices c !! item with
  | None => Err (UnknownItem item)
  | Some price =>
      if decide (item ∈ nonSellable c) then Err (NotSellable item)
      else if amount <=? 0 then Err InvalidAmount
      else
        inv <-! subItem item (ofInt amount) (inventory state);
        Ok (mkGame (balance state + price * amount) inv (stock state)
              (fields state) (trees state))
  end.

(** Modelled from the spec: the dispatch on the action tag, which is not
    among the sources. The effect of [item.redeemed] is left to the catalog,
    as the specification leaves it. *)
Definition dispatch (c : Catalog) (state : GameState) (action : Action)
    : result Error GameState :=
  match body action with
  | ItemPlanted index item => plant c state index item (createdAt action)
  | ItemHarvested index => harvest c state index (createdAt action)
  | TreeChopped index => chop c state index (createdAt action)
  | ItemCrafted item amount => craft c state item amount
  | ItemSell item amount => sell c state item amount
  | ItemRedeemed item =>
      match redeem c state item with
      | Some state' => Ok state'
      | None => Err (NotRedeemable item)
      end
  | OtherAction tag => Err (UnknownAction tag)
  end.

(** Modelled from the spec: the replay of [processActions], which is not
    among the sources, in the order received; the first failing action fails
    the batch. *)
Fixpoint replay (c : Catalog) (state : GameState) (actions : list Action)
    : result Error GameState :=
  match actions with
  | [] => Ok state
  | action :: rest =>
      state' <-! dispatch c state action;
      replay c state' rest
  end.

(** Modelled from the spec: [processActions(state, actions)] of [save.ts],
    which is not among the sources, at wall-clock time [now]: the temporal
    checks, then the replay. *)
Definition processActions (L : Limits) (c : Catalog) (now : Z)
    (state : GameState) (actions : list Action) : result Error GameState :=
  match temporalGate L now (createdAt <$> actions) with
  | Some e => Err e
  | None => replay c state actions
  end.

(** ** Reconciler *)

(** Modelled from the spec: the reconcile step of section 4.5, whose code is
    not among the sources. The conversion of the on-chain inventory is
    [makeInventory] of [transforms.ts]; the on-chain balance is in wei of the
    18-decimal token. On-chain entries override the farm's. *)

Definition reconcile (c : Catalog) (balanceWei : string) (amounts : list string)
    (state : GameState) : option GameState :=
  bal ← parseWei balanceWei;
  onchain ← makeInventory c amounts;
  Some (mkGame (fromWei bal ether) (onchain ∪ inventory state)
          (stock state) (fields state) (trees state)).

(** ** Save pipeline *)

Record FarmDoc := mkDoc {
  docId : Z;
  docAddress : string;
  docSession : string;
  docGameState : StoredGameState
}.

(** The chain facade: [loadBalance], [loadInventory] and [ownerOf]. *)
Record Chain := mkChain {
  loadBalance : string -> string;
  loadInventory : string -> list string;
  ownerOf : Z -> string
}.

(** What a save reads and writes: the repository of farm documents, the
    event audit store keyed by farm and session, the chain, and the session
    token the repository issues after a given one. *)
Record World := mkWorld {
  farms : gmap Z FarmDoc;
  eventStore : list (Z * string * Action);
  chain : Chain;
  newSession : string -> string
}.

Definition serializeQuantities (m : gmap string Decimal) : gmap string string :=
  decimalToString <$> m.

Definition serializeTree (t : Tree) : DbTree :=
  mkDbTree (choppedAt t) (FromString (decimalToString (wood t))).

(** Modelled from the spec: quantities back to decimal strings (step 5 of
    section 4.6; the code is not among the sources). *)
Definition serialize (state : GameState) : StoredGameState :=
  mkStored (decimalToString (balance state))
    (serializeQuantities (inventory state))
    (serializeQuantities (stock state))
    (fields state)
    (Some (serializeTree <$> trees state)).

(** Modelled from the spec: step 1 of section 4.6, the load of the farm
    document by [farmId]; a farm that is absent, or that [ownerOf] gives to
    another address than the sender, is not found. The repository is not
    among the sources. *)
Definition loadFarm (w : World) (account : string) (farmId : Z) : option FarmDoc :=
  doc ← farms w !! farmId;
  if decide (ownerOf (chain w) farmId = account) then Some doc else None.

(** Modelled from the spec: [updateGameState] of the repository, which is
    not among the sources, with its compare-and-swap on the session: the
    document is replaced, under a new session, when its session is still the
    one the caller loaded, and the update fails otherwise. *)
Definition updateGameState (w : World) (farmId : Z) (session : string)
    (gameState : StoredGameState) : option World :=
  doc ← farms w !! farmId;
  if decide (docSession doc = session)
  then Some (mkWorld
               (<[farmId := mkDoc (docId doc) (docAddress doc)
                              (newSession w session) gameState]> (farms w))
               (eventStore w) (chain w) (newSession w))
  else None.

(** Modelled from the spec: [EventStore.append(farmId, session, actions)],
    which is not among the sources. *)
Definition appendEvents (w : World) (farmId : Z) (session : string)
    (actions : list Action) : World :=
  mkWorld (farms w) (eventStore w ++ (pair (farmId, session) <$> actions))
    (chain w) (newSession w).

(** Modelled from the spec: [save] of [save.ts], which is not among the
    sources, step by step as section 4.6 lists them: load, reconcile with
    the chain, temporal gate and replay, serialize and persist under the
    compare-and-swap, append to the event store, return the state. An
    on-chain value that does not read as a number fails the save. *)
Definition save (L : Limits) (c : Catalog) (now : Z) (w : World)
    (farmId : Z) (account : string) (actions : list Action)
    : result Error GameState * World :=
  match loadFarm w account farmId with
  | None => (Err FarmNotFound, w)
  | Some doc =>
      match makeGame c (docGameState doc) with
      | None => (Err InvalidDocument, w)
      | Some loaded =>
          match
            reconcile c (loadBalance (chain w) account)
              (loadInventory (chain w) account) loaded
          with
          | None => (Err ExternalUnavailable, w)
          | Some state =>
              match processActions L c now state actions with
              | Err e => (Err e, w)
              | Ok state' =>
                  match updateGameState w farmId (docSession doc) (serialize state') with
                  | None => (Err SessionConflict, w)
                  | Some w' =>
                      (Ok state',
                       appendEvents w' farmId (newSession w (docSession doc)) actions)
                  end
              end
          end
      end
  end.

(** ** Withdraw handler *)

Module Withdraw.

Record WithdrawBody := mkBody {
  farmId : Z;
  sessionId : string;
  sender : string;
  signature : string;
  sfl : string;
  ids : list Z;
  amounts : list string
}.

(** The argument of [withdrawSignature]. *)
Record Payload := mkPayload {
  p_sender : string;
  p_farmId : Z;
  p_sessionId : string;
  p_sfl : string;
  p_ids : list Z;
  p_amounts : list string;
  p_tax : Z
}.

(** What the handler imports: the environment variable, the account
    check ([false] when [verifyAccount] throws), the whitelist, the tax
    table and the signer. *)
Record Env := mkEnv {
  NETWORK : string;
  verifyAccount : string -> string -> bool;
  canSync : string -> bool;
  getTax : string -> Z;
  withdrawSignature : Payload -> string
}.

Inductive HandlerError :=
| NoBody
| SchemaError (id : Z)
| AccountNotVerified
| NotOnWhitelist.

(** [Object.keys({...TOOLS, ...LimitedItems, ...RESOURCES})]; a key of
    several tables is listed once by JS, which membership does not see. *)
Definition VALID_ITEMS (c : Catalog) : list ItemName :=
  TOOLS c ++ LimitedItems c ++ RESOURCES c.

(** [KNOWN_IDS[id]], [None] for [undefined]. *)
Definition knownId (c : Catalog) (name : ItemName) : option Z :=
  (fun hit => hit.2.2) <$> list_find (fun entry => entry.1 = name) (KNOWN_IDS c).

Definition VALID_IDS (c : Catalog) : list (option Z) :=
  knownId c <$> VALID_ITEMS c.

(** [Joi.array().items(Joi.number().valid(...VALID_IDS)).required().min(0)]:
    the [ids] key of the schema, which the first element outside the list
    fails. The other keys of the schema are in [Endpoint.schema]. *)
Definition validate (c : Catalog) (body : WithdrawBody) : option HandlerError :=
  SchemaError <$> head (filter (fun id => Some id ∉ VALID_IDS c) (ids body)).

(** The handler, with the [ids] key of the schema, on a request whose other
    keys pass it; [Endpoint.handler] is the handler with every key. It
    returns its response together with the calls it made to the signer. *)
Definition handler (c : Catalog) (env : Env) (event_body : option WithdrawBody)
    : result HandlerError string * list Payload :=
  match event_body with
  | None => (Err NoBody, [])
  | Some body =>
      match validate c body with
      | Some e => (Err e, [])
      | None =>
          if negb (verifyAccount env (sender body) (signature body))
          then (Err AccountNotVerified, [])
          else if negb (String.eqb (NETWORK env) "mumbai") && negb (canSync env (sender body))
          then (Err NotOnWhitelist, [])
          else
            let payload :=
              mkPayload (sender body) (farmId body) (sessionId body) (sfl body)
                (ids body) (amounts body) (getTax env (sfl body)) in
            (Ok (withdrawSignature env payload), [payload])
      end
  end.

End Withdraw.

(** ** Withdraw handler: the whole schema *)

Module Endpoint.

(** The keys of the schema, in the order of the object literal. *)
Inductive Key :=
| KSessionId
| KFarmId
| KSender
| KSignature
| KSfl
| KIds
| KAmounts.

Definition keyName (key : Key) : string :=
  match key with
  | KSessionId => "sessionId"
  | KFarmId => "farmId"
  | KSender => "sender"
  | KSignature => "signature"
  | KSfl => "sfl"
  | KIds => "ids"
  | KAmounts => "amounts"
  end.

Definition keyIndex (key : Key) : nat :=
  match key with
  | KSessionId => 0
  | KFarmId => 1
  | KSender => 2
  | KSignature => 3
  | KSfl => 4
  | KIds => 5
  | KAmounts => 6
  end.

(** What Joi reports: a string key that is empty, a [farmId] that is no
    safe number, the first id outside [VALID_IDS], the first amount that is
    empty. *)
Inductive SchemaFailure :=
| EmptyValue (key : Key)
| UnsafeFarmId
| IdNotAllowed (index : nat) (id : Z)
| EmptyAmount (index : nat).

Definition failedKey (failure : SchemaFailure) : Key :=
  match failure with
  | EmptyValue key => key
  | UnsafeFarmId => KFarmId
  | IdNotAllowed _ _ => KIds
  | EmptyAmount _ => KAmounts
  end.

Inductive HandlerError :=
| NoBody
| ValidationError (failure : SchemaFailure)
| AccountNotVerified
| NotOnWhitelist.

(** The messages the handler spells out; the others are Joi's and
    [verifyAccount]'s. *)
Definition message (e : HandlerError) : option string :=
  match e with
  | NoBody => Some "No body found in event"
  | NotOnWhitelist => Some "Not on whitelist"
  | _ => None
  end.

(** [Number.MAX_SAFE_INTEGER] *)
Definition MAX_SAFE_INTEGER : Z := 2 ^ 53 - 1.

(** [Joi.string().required()]: the empty string is refused. *)
Definition requiredString (key : Key) (value : string) : option SchemaFailure :=
  if decide (value = EmptyString) then Some (EmptyValue key) else None.

(** [Joi.number().required()]: a number outside the safe integers is
    refused. *)
Definition requiredNumber (value : Z) : option SchemaFailure :=
  if decide (- MAX_SAFE_INTEGER <= value <= MAX_SAFE_INTEGER) then None
  else Some UnsafeFarmId.

(** [Joi.array().items(Joi.number().valid(...VALID_IDS)).required().min(0)] *)
Definition idItems (c : Catalog) (ids : list Z) : option SchemaFailure :=
  (fun hit => IdNotAllowed hit.1 hit.2)
    <$> list_find (fun id => Some id ∉ Withdraw.VALID_IDS c) ids.

(** [Joi.array().items(Joi.string()).required().min(0)] *)
Definition amountItems (amounts : list string) : option SchemaFailure :=
  (fun hit => EmptyAmount hit.1)
    <$> list_find (fun amount => amount = EmptyString) amounts.

Definition orElse (first next : option SchemaFailure) : option SchemaFailure :=
  match first with
  | Some failure => Some failure
  | None => next
  end.

(** [schema.validate(body)]: the keys are validated in the order of the
    schema and the first failure is the error. That each key is present,
    with a value of its type, holds by the type of [WithdrawBody]. *)
Definition schema (c : Catalog) (body : Withdraw.WithdrawBody) : option SchemaFailure :=
  orElse (requiredString KSessionId (Withdraw.sessionId body))
    (orElse (requiredNumber (Withdraw.farmId body))
       (orElse (requiredString KSender (Withdraw.sender body))
          (orElse (requiredString KSignature (Withdraw.signature body))
             (orElse (requiredString KSfl (Withdraw.sfl body))
                (orElse (idItems c (Withdraw.ids body))
                   (amountItems (Withdraw.amounts body))))))).

(** The handler returns its response together with the calls it made to
    the signer. *)
Definition handler (c : Catalog) (env : Withdraw.Env)
    (event_body : option Withdraw.WithdrawBody)
    : result HandlerError string * list Withdraw.Payload :=
  match event_body with
  | None => (Err NoBody, [])
  | Some body =>
      match schema c body with
      | Some failure => (Err (ValidationError failure), [])
      | None =>
          if negb (Withdraw.verifyAccount env (Withdraw.sender body)
                     (Withdraw.signature body))
          then (Err AccountNotVerified, [])
          else if negb (String.eqb (Withdraw.NETWORK env) "mumbai")
                  && negb (Withdraw.canSync env (Withdraw.sender body))
          then (Err NotOnWhitelist, [])
          else
            let payload :=
              Withdraw.mkPayload (Withdraw.sender body) (Withdraw.farmId body)
                (Withdraw.sessionId body) (Withdraw.sfl body) (Withdraw.ids body)
                (Withdraw.amounts body) (Withdraw.getTax env (Withdraw.sfl body)) in
            (Ok (Withdraw.withdrawSignature env payload), [payload])
      end
  end.

(** The value of a key passes the schema. *)
Definition passes (c : Catalog) (body : Withdraw.WithdrawBody) (key : Key) : Prop :=
  match key with
  | KSessionId => Withdraw.sessionId body ≠ EmptyString
  | KFarmId => - MAX_SAFE_INTEGER <= Withdraw.farmId body <= MAX_SAFE_INTEGER
  | KSender => Withdraw.sender body ≠ EmptyString
  | KSignature => Withdraw.signature body ≠ EmptyString
  | KSfl => Withdraw.sfl body ≠ EmptyString
  | KIds => Forall (fun id => Some id ∈ Withdraw.VALID_IDS c) (Withdraw.ids body)
  | KAmounts => Forall (fun amount => amount ≠ EmptyString) (Withdraw.amounts body)
  end.

(** The request passes the schema. *)
Definition wellFormed (c : Catalog) (body : Withdraw.WithdrawBody) : Prop :=
  ∀ key, passes c body key.

(** What a reported failure says about the request: the value it names
    fails, and it is the first item of its array to fail. *)
Definition reported (c : Catalog) (body : Withdraw.WithdrawBody)
    (failure : SchemaFailure) : Prop :=
  match failure with
  | EmptyValue key => key ∈ [KSessionId; KSender; KSignature; KSfl]
  | UnsafeFarmId => True
  | IdNotAllowed index id =>
      Withdraw.ids body !! index = Some id
      ∧ (Some id ∉ Withdraw.VALID_IDS c)
      ∧ Forall (fun id => Some id ∈ Withdraw.VALID_IDS c) (take index (Withdraw.ids body))
  | EmptyAmount index =>
      Withdraw.amounts body !! index = Some EmptyString
      ∧ Forall (fun amount => amount ≠ EmptyString) (take index (Withdraw.amounts body))
  end.

End Endpoint.

(** ** [contracts/Token.sol] *)

Module Token.

Abbreviation address := Z (only parsing).

(** The storage of [SunflowerLandToken] with the inherited state the
    constructors touch. A mapping reads [false] where nothing was written. *)
Record Storage := mkStorage {
  name : string;
  symbol : string;
  owner : address;
  paused : bool;
  gameRoles : gmap Z bool;
  team : address
}.

(** Storage before the constructor runs: every slot is zero. *)
Definition empty : Storage := mkStorage EmptyString EmptyString 0 false ∅ 0.

(** The constructor's parameters, which are local variables. *)
Record Params := mkParams { _game : address; _team : address }.

(** [ERC20("Sunflower Land", "SFL")] and [Ownable()] *)
Definition inherited (msg_sender : address) (s : Storage) : Storage :=
  mkStorage "Sunflower Land" "SFL" msg_sender (paused s) (gameRoles s) (team s).

(** [gameRoles[msg.sender] = true;] *)
Definition setGameRole (msg_sender : address) (s : Storage) : Storage :=
  mkStorage (name s) (symbol s) (owner s) (paused s)
    (<[msg_sender := true]> (gameRoles s)) (team s).

(** [_team = team;] writes the storage variable into the parameter. *)
Definition assignTeam (s : Storage) (p : Params) : Params :=
  mkParams (_game p) (team s).

(** The constructor: the storage it leaves and the final parameters. *)
Definition constructor (msg_sender : address) (p : Params) : Storage * Params :=
  let s := inherited msg_sender empty in
  let s := setGameRole msg_sender s in
  (s, assignTeam s p).

(** [passTeamRole], the one function that writes [team]. *)
Definition passTeamRole (msg_sender : address) (s : Storage) (new_team : address)
    : option Storage :=
  if decide (owner s = msg_sender)
  then Some (mkStorage (name s) (symbol s) (owner s) (paused s) (gameRoles s) new_team)
  else None.

End Token.

(** ** The data of the jest suite

    A small catalog with the items the suite uses: Potato Seed costs 0.02 SFL
    and is sold from stock, Sunflower Seed grows in 60 seconds, Chicken Coop
    is a limited item. *)

Definition sfl (milli : Z) : Decimal := milli * 10 ^ 15.

Definition SAMPLE_CATALOG : Catalog :=
  {| KNOWN_IDS :=
       [("Sunflower Seed", 101); ("Potato Seed", 102); ("Sunflower", 201);
        ("Potato", 202); ("Axe", 301); ("Pickaxe", 302);
        ("Chicken Coop", 401); ("Wood", 601)];
     getItemUnit := fun name =>
       match name with
       | Some n => if decide (n ∈ ["Axe"; "Pickaxe"; "Chicken Coop"]) then wei else ether
       | None => ether
       end;
     INITIAL_TREES :=
       {[ 0 := mkTree 0 (ofInt 3); 1 := mkTree 0 (ofInt 3); 2 := mkTree 0 (ofInt 3) ]};
     TOOLS := ["Axe"; "Pickaxe"];
     LimitedItems := ["Chicken Coop"];
     RESOURCES := ["Wood"];
     recipes :=
       {[ "Sunflower Seed" := mkRecipe [] (sfl 10) true;
          "Potato Seed" := mkRecipe [] (sfl 20) true;
          "Axe" := mkRecipe [] (sfl 1000) true;
          "Pickaxe" := mkRecipe [("Wood", ofInt 5)] (sfl 1000) true;
          "Chicken Coop" := mkRecipe [("Wood", ofInt 10)] (sfl 200000) false ]};
     crops :=
       {[ "Sunflower Seed" := mkCrop "Sunflower" 60;
          "Potato Seed" := mkCrop "Potato" 300 ]};
     sellPrices := {[ "Sunflower" := sfl 20; "Potato" := sfl 140 ]};
     nonSellable := [];
     FIELD_COUNT := 5;
     TREE_WOOD := ofInt 3;
     TREE_RECOVERY_SECONDS := 120 * 60;
     redeem := fun _ _ => None |}.

(** [Date.now()] of the examples. *)
Definition T0 : Z := 1640995200000.

Definition ACCOUNT : string := "0xA9Fe8878e901eF014a789feC3257F72A51d4103F".

Definition ZERO_SESSION : string :=
  "0x0000000000000000000000000000000000000000000000000000000000000000".

(** The document [getFarmMock] returns in "saves a farm". *)
Definition JEST_GAME_STATE : StoredGameState :=
  mkStored "20" ∅ {[ "Potato Seed" := "7" ]} ∅ None.

(** [loadBalanceMock] and [loadInventoryMock] of the same case; the farm
    belongs to the account that saves. *)
Definition JEST_CHAIN : Chain :=
  mkChain (fun _ => "120000000000000000000") (fun _ => ["1"; "2"])
    (fun _ => ACCOUNT).

(** A session token that follows a given one. *)
Definition NEXT_SESSION (session : string) : string := "0x01" +:+ session.

Definition JEST_WORLD : World :=
  mkWorld {[ 13 := mkDoc 13 ACCOUNT ZERO_SESSION JEST_GAME_STATE ]} []
    JEST_CHAIN NEXT_SESSION.

(** The object the case "saves a farm" expects [updateGameState] to be
    called with; it has no [trees]. *)
Definition JEST_SAVED : StoredGameState :=
  mkStored "19.9" {[ "Potato Seed" := "5" ]} {[ "Potato Seed" := "2" ]} ∅ None.

Definition JEST_CRAFT : list Action :=
  [mkAction T0 (ItemCrafted "Potato Seed" 5)].

Definition JEST_LIMITED : list Action :=
  [mkAction T0 (ItemCrafted "Chicken Coop" 1)].

(** The timestamps of the batches in the [processActions] cases. *)
Definition JEST_IN_ORDER (now : Z) : list Z := [now; now - 60 * 1000].
Definition JEST_FUTURE (now : Z) : list Z := [now + 2 * 60 * 1000].
Definition JEST_PAST (now : Z) : list Z := [now - 60 * 10 * 1000].
Definition JEST_RANGE (now : Z) : list Z := [now - 60 * 4 * 1000; now - 60 * 1 * 1000].
Definition JEST_QUICK (now : Z) : list Z := [now - 100; now - 5].
Definition JEST_DENSE (now : Z) : list Z := [now - 400; now - 250; now - 50].
(** The gap and density batches moved ten minutes into the past. *)
Definition OLD_QUICK (now : Z) : list Z :=
  [now - 60 * 10 * 1000; now - 60 * 10 * 1000 + 5].
Definition OLD_DENSE (now : Z) : list Z :=
  [now - 60 * 10 * 1000; now - 60 * 10 * 1000 + 120; now - 60 * 10 * 1000 + 240].
Definition JEST_SINGLE (now : Z) : list Z := [now].
Definition JEST_MULTIPLE (now : Z) : list Z := [now - 60 * 1000; now].

Definition gateIs (L : Limits) (now : Z) (ts : list Z) (expected : option Error) : bool :=
  bool_decide (temporalGate L now ts = expected).

(** The outcome the suite expects of the temporal checks, as a condition on
    the limits. *)
Definition jest_suite (L : Limits) : bool :=
  gateIs L T0 (JEST_SINGLE T0) None
  && gateIs L T0 (JEST_MULTIPLE T0) None
  && gateIs L T0 (JEST_IN_ORDER T0) (Some TemporalOrder)
  && gateIs L T0 (JEST_FUTURE T0) (Some TemporalFuture)
  && gateIs L T0 (JEST_PAST T0) (Some TemporalPast)
  && gateIs L T0 (JEST_RANGE T0) (Some TemporalRange)
  && gateIs L T0 (JEST_QUICK T0) (Some TemporalGap)
  && gateIs L T0 (JEST_DENSE T0) (Some TemporalDensity).

(** Limits under which every case of the suite has the expected outcome. *)
Definition SAMPLE_LIMITS : Limits :=
  {| MAX_FUTURE_MS := 60 * 1000;
     MAX_AGE_MS := 5 * 60 * 1000;
     MAX_RANGE_MS := 2 * 60 * 1000;
     MIN_GAP_MS := 100;
     DENSITY_WINDOW_MS := 400;
     DENSITY_MAX_ACTIONS := 2%nat |}.


(** An environment for the withdraw handler and two requests: one for an
    id outside [VALID_IDS], one with an id and no amount. Seeds are not
    withdrawable in the sample catalog. *)
Definition SAMPLE_ENV : Withdraw.Env :=
  Withdraw.mkEnv "mainnet" (fun _ _ => true) (fun _ => true) (fun _ => 3000)
    (fun _ => "0xsigned").

Definition SEED_REQUEST : Withdraw.WithdrawBody :=
  Withdraw.mkBody 13 ZERO_SESSION ACCOUNT "0xsig" "0" [301; 102] ["1"; "1"].

Definition UNEVEN_REQUEST : Withdraw.WithdrawBody :=
  Withdraw.mkBody 13 ZERO_SESSION ACCOUNT "0xsig" "0" [301] [].

(** The farm and the actions of the two [item.sell] cases. *)
Definition SUNFLOWER_FARM : GameState :=
  mkGame 0 {[ "Sunflower" := ofInt 1000 ]} ∅ ∅ ∅.

Definition sellsAt (ts : list Z) : list Action :=
  (fun t => mkAction t (ItemSell "Sunflower" 1)) <$> ts.

(** The case "ensures events are in order". *)
Definition JEST_UNORDERED : list Action :=
  [mkAction T0 (ItemPlanted 4 "Sunflower Seed");
   mkAction (T0 - 60 * 1000) (ItemHarvested 4)].

Definition SEED_FARM : GameState :=
  mkGame 0 {[ "Sunflower Seed" := ofInt 1 ]} ∅ ∅ ∅.

(** ** The temporal checks as properties of a batch *)

(** [a] and [b] are the timestamps of two consecutive actions. *)
Definition consecutive (ts : list Z) (a b : Z) : Prop :=
  ∃ i : nat, ts !! i = Some a ∧ ts !! S i = Some b.

Definition outOfOrder (ts : list Z) : Prop :=
  ∃ a b, consecutive ts a b ∧ b < a.

Definition inFuture (L : Limits) (now : Z) (ts : list Z) : Prop :=
  ∃ final, last ts = Some final ∧ now + MAX_FUTURE_MS L < final.

Definition tooOld (L : Limits) (now : Z) (ts : list Z) : Prop :=
  ∃ first, head ts = Some first ∧ first < now - MAX_AGE_MS L.

Definition rangeTooLarge (L : Limits) (ts : list Z) : Prop :=
  ∃ first final,
    head ts = Some first ∧ last ts = Some final ∧ MAX_RANGE_MS L < final - first.

(** Some consecutive pair is less than [gap] milliseconds apart. *)
Definition firedTooQuickly (gap : Z) (ts : list Z) : Prop :=
  ∃ a b, consecutive ts a b ∧ b - a < gap.

(** Some sliding window of length [w], wherever it starts, contains more
    than [n] actions. *)
Definition windowExceeded (w : Z) (n : nat) (ts : list Z) : Prop :=
  ∃ t, (n < inWindow t w ts)%nat.

Definition passesBeforeGap (L : Limits) (now : Z) (ts : list Z) : Prop :=
  ¬ outOfOrder ts ∧ ¬ inFuture L now ts ∧ ¬ tooOld L now ts ∧ ¬ rangeTooLarge L ts.

Definition violatesGate (L : Limits) (now : Z) (ts : list Z) : Prop :=
  outOfOrder ts ∨ inFuture L now ts ∨ tooOld L now ts ∨ rangeTooLarge L ts
  ∨ firedTooQuickly (MIN_GAP_MS L) ts
  ∨ windowExceeded (DENSITY_WINDOW_MS L) (DENSITY_MAX_ACTIONS L) ts.

(** What each outcome of the gate says about the batch. *)
Definition gateOutcome (L : Limits) (now : Z) (ts : list Z) (outcome : option Error) : Prop :=
  match outcome with
  | None => ¬ violatesGate L now ts
  | Some TemporalOrder => outOfOrder ts
  | Some TemporalFuture => ¬ outOfOrder ts ∧ inFuture L now ts
  | Some TemporalPast =>
      ¬ outOfOrder ts ∧ ¬ inFuture L now ts ∧ tooOld L now ts
  | Some TemporalRange =>
      ¬ outOfOrder ts ∧ ¬ inFuture L now ts ∧ ¬ tooOld L now ts
      ∧ rangeTooLarge L ts
  | Some TemporalGap =>
      passesBeforeGap L now ts ∧ firedTooQuickly (MIN_GAP_MS L) ts
  | Some TemporalDensity =>
      passesBeforeGap L now ts ∧ ¬ firedTooQuickly (MIN_GAP_MS L) ts
      ∧ windowExceeded (DENSITY_WINDOW_MS L) (DENSITY_MAX_ACTIONS L) ts
  | Some _ => False
  end.

(** An item is limited when its recipe is flagged not craftable. *)
Definition limited (c : Catalog) (item : ItemName) : Prop :=
  ∃ recipe, recipes c !! item = Some recipe ∧ craftable recipe = false.

Global Instance limited_dec (c : Catalog) (item : ItemName) : Decision (limited c item).
Proof.
  unfold limited. destruct (recipes c !! item) as [recipe|].
  - destruct (craftable recipe) eqn:Hflag.
    + right. intros (other & Hother & Hfalse). congruence.
    + left. by exists recipe.
  - right. by intros (other & Hother & _).
Defined.

(** The catalog gives a limited item no source inside a save: no seed
    harvests into one, the wood of a tree is not one, no craftable recipe
    has one as an ingredient, and [item.redeemed] adds to none. *)
Definition yieldsNoLimited (c : Catalog) : Prop :=
  map_Forall (fun _ crop => ¬ limited c (harvestsInto crop)) (crops c)
  ∧ ¬ limited c "Wood"
  ∧ map_Forall
      (fun _ recipe =>
         craftable recipe = true →
         Forall (fun ing => ¬ limited c ing.1) (ingredients recipe))
      (recipes c)
  ∧ ∀ state item state' name,
      redeem c state item = Some state' → limited c name →
      qty (inventory state') name <= qty (inventory state) name.

(** Catalogs that differ from [c] in one table. *)
Definition withRecipes (c : Catalog) (table : gmap string Recipe) : Catalog :=
  {| KNOWN_IDS := KNOWN_IDS c; getItemUnit := getItemUnit c;
     INITIAL_TREES := INITIAL_TREES c; TOOLS := TOOLS c;
     LimitedItems := LimitedItems c; RESOURCES := RESOURCES c;
     recipes := table; crops := crops c; sellPrices := sellPrices c;
     nonSellable := nonSellable c; FIELD_COUNT := FIELD_COUNT c;
     TREE_WOOD := TREE_WOOD c; TREE_RECOVERY_SECONDS := TREE_RECOVERY_SECONDS c;
     redeem := redeem c |}.

Definition withCrops (c : Catalog) (table : gmap string Crop) : Catalog :=
  {| KNOWN_IDS := KNOWN_IDS c; getItemUnit := getItemUnit c;
     INITIAL_TREES := INITIAL_TREES c; TOOLS := TOOLS c;
     LimitedItems := LimitedItems c; RESOURCES := RESOURCES c;
     recipes := recipes c; crops := table; sellPrices := sellPrices c;
     nonSellable := nonSellable c; FIELD_COUNT := FIELD_COUNT c;
     TREE_WOOD := TREE_WOOD c; TREE_RECOVERY_SECONDS := TREE_RECOVERY_SECONDS c;
     redeem := redeem c |}.

Definition withRedeem (c : Catalog)
    (promotion : GameState -> ItemName -> option GameState) : Catalog :=
  {| KNOWN_IDS := KNOWN_IDS c; getItemUnit := getItemUnit c;
     INITIAL_TREES := INITIAL_TREES c; TOOLS := TOOLS c;
     LimitedItems := LimitedItems c; RESOURCES := RESOURCES c;
     recipes := recipes c; crops := crops c; sellPrices := sellPrices c;
     nonSellable := nonSellable c; FIELD_COUNT := FIELD_COUNT c;
     TREE_WOOD := TREE_WOOD c; TREE_RECOVERY_SECONDS := TREE_RECOVERY_SECONDS c;
     redeem := promotion |}.

(** The sample catalog with a second limited item. *)
Definition FESTIVE_CATALOG : Catalog :=
  withRecipes SAMPLE_CATALOG
    (<["Christmas Tree" := mkRecipe [("Wood", ofInt 100)] (sfl 50000) false]>
       (recipes SAMPLE_CATALOG)).

Definition FESTIVE_BATCH : list Action :=
  [mkAction (T0 - 1000) (ItemCrafted "Chicken Coop" 1);
   mkAction T0 (ItemCrafted "Christmas Tree" 1)].

(** The sample catalog with a promotion that grants the item asked for. *)
Definition GIFT_CATALOG : Catalog :=
  withRedeem SAMPLE_CATALOG
    (fun state item =>
       Some (mkGame (balance state) (addItem item ONE (inventory state))
               (stock state) (fields state) (trees state))).

(** The sample catalog with a seed that grows into a limited item. *)
Definition ORCHARD_CATALOG : Catalog :=
  withCrops SAMPLE_CATALOG {[ "Sunflower Seed" := mkCrop "Chicken Coop" 60 ]}.

(** The sample catalog with Wood flagged limited. *)
Definition TIMBER_CATALOG : Catalog :=
  withRecipes SAMPLE_CATALOG
    (<["Wood" := mkRecipe [] 0 false]> (recipes SAMPLE_CATALOG)).

(** The sample catalog with a craftable item made of a limited one. *)
Definition UPGRADE_CATALOG : Catalog :=
  withRecipes SAMPLE_CATALOG
    (<["Hen House" := mkRecipe [("Chicken Coop", ofInt 1)] 0 true]>
       (recipes SAMPLE_CATALOG)).

(** A farm with an axe and the initial trees. *)
Definition AXE_FARM : GameState :=
  mkGame 0 {[ "Axe" := ofInt 1 ]} ∅ ∅ (INITIAL_TREES SAMPLE_CATALOG).

(** The cost of [name] in an ingredient list, zero when it is not listed. *)
Fixpoint costOf (ings : list (ItemName * Decimal)) (name : ItemName) : Decimal :=
  match ings with
  | [] => 0
  | (n, cost) :: rest => if decide (n = name) then cost else costOf rest name
  end.

(** The state [makeGame] returns for the document of "saves a farm". *)
Definition JEST_STATE : GameState :=
  mkGame (ofInt 20) ∅ {[ "Potato Seed" := ofInt 7 ]} ∅ (INITIAL_TREES SAMPLE_CATALOG).

(** The on-chain value of the item at position [i] of the catalog's ID list,
    [None] when the chain reports nothing or zero for it. *)
Definition onchainValue (c : Catalog) (amounts : list string) (i : nat)
    (name : ItemName) : option Decimal :=
  amount ← amounts !! i;
  w ← parseWei amount;
  let value := fromWei w (getItemUnit c (Some name)) in
  if decide (value = 0) then None else Some value.

(** The game state the repository holds for a farm. *)
Definition persisted (w : World) (farmId : Z) : option StoredGameState :=
  docGameState <$> farms w !! farmId.

(** ** [contracts/Token.sol]: the functions of the contract

    The contract's own storage is [Token.Storage]. The balances and
    allowances belong to the inherited ERC20, whose internal functions are
    imported and not part of the sources: they are the fields of an
    [Inherited] record over a ledger type, [None] standing for a revert. *)

Module SunflowerLandToken.

Inductive Revert :=
| NotTheGame
| NotTheOwner
| InheritedRevert.

(** The reason string of the [require] in the four game functions. *)
Definition revertReason (r : Revert) : option string :=
  match r with
  | NotTheGame => Some "SunflowerLandToken: You are not the game"
  | _ => None
  end.

Record Inherited (E : Type) := mkInherited {
  _mint : Z -> Z -> E -> option E;
  _burn : Z -> Z -> E -> option E;
  _transfer : Z -> Z -> Z -> E -> option E;
  _approve : Z -> Z -> Z -> E -> option E
}.
Arguments _mint {E} _ _ _ _.
Arguments _burn {E} _ _ _ _.
Arguments _transfer {E} _ _ _ _ _.
Arguments _approve {E} _ _ _ _ _.

Record State (E : Type) := mkState { storage : Token.Storage; ledger : E }.
Arguments mkState {E} _ _.
Arguments storage {E} _.
Arguments ledger {E} _.

(** [gameRoles[a] == true]; a mapping reads [false] where nothing was
    written. *)
Definition hasGameRole (s : Token.Storage) (a : Z) : bool :=
  default false (Token.gameRoles s !! a).

(** The state the constructor leaves, over the ledger the inherited
    constructors leave. *)
Definition deploy {E} (msg_sender : Z) (p : Token.Params) (initial : E) : State E :=
  mkState (Token.constructor msg_sender p).1 initial.

Definition setRole (s : Token.Storage) (a : Z) (role : bool) : Token.Storage :=
  Token.mkStorage (Token.name s) (Token.symbol s) (Token.owner s) (Token.paused s)
    (<[a := role]> (Token.gameRoles s)) (Token.team s).

(** [function addGameRole(address _game) public onlyOwner] *)
Definition addGameRole {E} (msg_sender _game : Z) (st : State E)
    : result Revert (State E) :=
  if decide (Token.owner (storage st) = msg_sender)
  then Ok (mkState (setRole (storage st) _game true) (ledger st))
  else Err NotTheOwner.

(** [function removeGameRole(address _game) public onlyOwner] *)
Definition removeGameRole {E} (msg_sender _game : Z) (st : State E)
    : result Revert (State E) :=
  if decide (Token.owner (storage st) = msg_sender)
  then Ok (mkState (setRole (storage st) _game false) (ledger st))
  else Err NotTheOwner.

(** [function passTeamRole(address _team) public onlyOwner returns (bool)] *)
Definition passTeamRole {E} (msg_sender _team : Z) (st : State E)
    : result Revert (bool * State E) :=
  match Token.passTeamRole msg_sender (storage st) _team with
  | Some s => Ok (true, mkState s (ledger st))
  | None => Err NotTheOwner
  end.

(** The [require] of the game functions, then the inherited call. *)
Definition asGame {E} (msg_sender : Z) (st : State E) (call : E -> option E)
    : result Revert (State E) :=
  if hasGameRole (storage st) msg_sender
  then match call (ledger st) with
       | Some l => Ok (mkState (storage st) l)
       | None => Err InheritedRevert
       end
  else Err NotTheGame.

(** [function gameMint(address account, uint256 amount) public] *)
Definition gameMint {E} (erc : Inherited E) (msg_sender account amount : Z)
    (st : State E) : result Revert (State E) :=
  asGame msg_sender st (_mint erc account amount).

(** [function gameBurn(address account, uint256 amount) public] *)
Definition gameBurn {E} (erc : Inherited E) (msg_sender account amount : Z)
    (st : State E) : result Revert (State E) :=
  asGame msg_sender st (_burn erc account amount).

(** [function gameTransfer(address from, address to, uint256 amount) public] *)
Definition gameTransfer {E} (erc : Inherited E) (msg_sender from to amount : Z)
    (st : State E) : result Revert (State E) :=
  asGame msg_sender st (_transfer erc from to amount).

(** [function gameApprove(address spender, uint256 amount) public returns (bool)]:
    the approval is given in the name of the caller. *)
Definition gameApprove {E} (erc : Inherited E) (msg_sender spender amount : Z)
    (st : State E) : result Revert (bool * State E) :=
  match asGame msg_sender st (_approve erc msg_sender spender amount) with
  | Ok st' => Ok (true, st')
  | Err r => Err r
  end.

(** The functions the contract declares, as calls. *)
Inductive Call :=
| AddGameRole (_game : Z)
| RemoveGameRole (_game : Z)
| PassTeamRole (_team : Z)
| GameMint (account amount : Z)
| GameBurn (account amount : Z)
| GameTransfer (from to amount : Z)
| GameApprove (spender amount : Z).

Definition call {E} (erc : Inherited E) (msg_sender : Z) (f : Call) (st : State E)
    : result Revert (State E) :=
  match f with
  | AddGameRole _game => addGameRole msg_sender _game st
  | RemoveGameRole _game => removeGameRole msg_sender _game st
  | PassTeamRole _team =>
      match passTeamRole msg_sender _team st with
      | Ok (_, st') => Ok st'
      | Err r => Err r
      end
  | GameMint account amount => gameMint erc msg_sender account amount st
  | GameBurn account amount => gameBurn erc msg_sender account amount st
  | GameTransfer from to amount => gameTransfer erc msg_sender from to amount st
  | GameApprove spender amount =>
      match gameApprove erc msg_sender spender amount st with
      | Ok (_, st') => Ok st'
      | Err r => Err r
      end
  end.

(** A transaction: a call that reverts leaves the state as it was. *)
Definition transact {E} (erc : Inherited E) (st : State E) (tx : Z * Call) : State E :=
  match call erc tx.1 tx.2 st with
  | Ok st' => st'
  | Err _ => st
  end.

Definition run {E} (erc : Inherited E) (txs : list (Z * Call)) (st : State E)
    : State E :=
  foldl (transact erc) st txs.

(** The team address [sender] passes in a transaction, if it does. *)
Definition teamPassedBy (sender : Z) (tx : Z * Call) : option Z :=
  match tx.2 with
  | PassTeamRole _team => if decide (tx.1 = sender) then Some _team else None
  | _ => None
  end.

(** The last team address [sender] passed, zero when it passed none. *)
Definition lastTeam (sender : Z) (txs : list (Z * Call)) : Z :=
  default 0 (last (omap (teamPassedBy sender) txs)).

End SunflowerLandToken.

(** A ledger for the examples that records the inherited calls made. *)
Definition RECORDING_LEDGER : SunflowerLandToken.Inherited (list (string * list Z)) :=
  SunflowerLandToken.mkInherited _
    (fun account amount l => Some (l ++ [("_mint", [account; amount])])%list)
    (fun account amount l => Some (l ++ [("_burn", [account; amount])])%list)
    (fun from to amount l => Some (l ++ [("_transfer", [from; to; amount])])%list)
    (fun owner spender amount l => Some (l ++ [("_approve", [owner; spender; amount])])%list).

(** The request a handler passes to the signer. *)
Definition payloadOf (env : Withdraw.Env) (body : Withdraw.WithdrawBody)
    : Withdraw.Payload :=
  Withdraw.mkPayload (Withdraw.sender body) (Withdraw.farmId body)
    (Withdraw.sessionId body) (Withdraw.sfl body) (Withdraw.ids body)
    (Withdraw.amounts body) (Withdraw.getTax env (Withdraw.sfl body)).

(** What each outcome of the handler says about the request: the checks
    that passed, the one that failed, and the calls to the signer. *)
Definition handlerOutcome (c : Catalog) (env : Withdraw.Env)
    (event_body : option Withdraw.WithdrawBody)
    (outcome : result Endpoint.HandlerError string * list Withdraw.Payload) : Prop :=
  match outcome.1 with
  | Err Endpoint.NoBody => event_body = None ∧ outcome.2 = []
  | Err (Endpoint.ValidationError failure) =>
      ∃ body, event_body = Some body
        ∧ ¬ Endpoint.passes c body (Endpoint.failedKey failure)
        ∧ (∀ key, (Endpoint.keyIndex key < Endpoint.keyIndex (Endpoint.failedKey failure))%nat →
             Endpoint.passes c body key)
        ∧ Endpoint.reported c body failure
        ∧ outcome.2 = []
  | Err Endpoint.AccountNotVerified =>
      ∃ body, event_body = Some body
        ∧ Endpoint.wellFormed c body
        ∧ Withdraw.verifyAccount env (Withdraw.sender body) (Withdraw.signature body) = false
        ∧ outcome.2 = []
  | Err Endpoint.NotOnWhitelist =>
      ∃ body, event_body = Some body
        ∧ Endpoint.wellFormed c body
        ∧ Withdraw.verifyAccount env (Withdraw.sender body) (Withdraw.signature body) = true
        ∧ Withdraw.NETWORK env ≠ "mumbai"
        ∧ Withdraw.canSync env (Withdraw.sender body) = false
        ∧ outcome.2 = []
  | Ok response =>
      ∃ body, event_body = Some body
        ∧ Endpoint.wellFormed c body
        ∧ Withdraw.verifyAccount env (Withdraw.sender body) (Withdraw.signature body) = true
        ∧ (Withdraw.NETWORK env = "mumbai"
           ∨ Withdraw.canSync env (Withdraw.sender body) = true)
        ∧ response = Withdraw.withdrawSignature env (payloadOf env body)
        ∧ outcome.2 = [payloadOf env body]
  end.

(** A request with an empty [sfl], and an environment whose whitelist
    refuses every sender. *)
Definition EMPTY_SFL_REQUEST : Withdraw.WithdrawBody :=
  Withdraw.mkBody 13 ZERO_SESSION ACCOUNT "0xsig" EmptyString [301] ["1"].

Definition CLOSED_ENV (network : string) : Withdraw.Env :=
  Withdraw.mkEnv network (fun _ _ => true) (fun _ => false) (fun _ => 3000)
    (fun _ => "0xsigned").

(** * Properties *)

(** ** Temporal gate *)

Section TemporalGate.

Implicit Types (ts : list Z) (L : Limits).

Lemma consecutive_cons ts x a b :
  consecutive ts a b → consecutive (x :: ts) a b.
Proof. intros (i & Ha & Hb). by exists (S i). Qed.

Lemma consecutive_cons_inv ts x y a b :
  consecutive (x :: y :: ts) a b →
  (a = x ∧ b = y) ∨ consecutive (y :: ts) a b.
Proof.
  intros (i & Ha & Hb). destruct i as [|i]; simpl in *.
  - left. split; congruence.
  - right. by exists i.
Qed.

Lemma chronological_spec ts : chronological ts = false ↔ outOfOrder ts.
Proof.
  induction ts as [|x [|y ts] IH].
  - split; [done|]. by intros (a & b & (i & Ha & _) & _).
  - split; [done|]. intros (a & b & (i & Ha & Hb) & _). by destruct i.
  - change (chronological (x :: y :: ts))
      with ((x <=? y) && chronological (y :: ts)).
    rewrite andb_false_iff, IH. split.
    + intros [H | (a & b & Hc & Hlt)].
      * exists x, y. split; [by exists 0%nat | lia].
      * exists a, b. split; [by apply consecutive_cons | done].
    + intros (a & b & Hc & Hlt).
      destruct (consecutive_cons_inv _ _ _ _ _ Hc) as [[-> ->] | Hc'].
      * left. lia.
      * right. by exists a, b.
Qed.

Lemma gapsAtLeast_spec gap ts :
  gapsAtLeast gap ts = false ↔ firedTooQuickly gap ts.
Proof.
  induction ts as [|x [|y ts] IH].
  - split; [done|]. by intros (a & b & (i & Ha & _) & _).
  - split; [done|]. intros (a & b & (i & Ha & Hb) & _). by destruct i.
  - change (gapsAtLeast gap (x :: y :: ts))
      with ((gap <=? y - x) && gapsAtLeast gap (y :: ts)).
    rewrite andb_false_iff, IH. split.
    + intros [H | (a & b & Hc & Hlt)].
      * exists x, y. split; [by exists 0%nat | lia].
      * exists a, b. split; [by apply consecutive_cons | done].
    + intros (a & b & Hc & Hlt).
      destruct (consecutive_cons_inv _ _ _ _ _ Hc) as [[-> ->] | Hc'].
      * left. lia.
      * right. by exists a, b.
Qed.

Lemma list_minimum (l : list Z) :
  l ≠ [] → ∃ m, m ∈ l ∧ ∀ x, x ∈ l → m <= x.
Proof.
  induction l as [|a l IH]; [done|]. intros _.
  destruct l as [|b l].
  - exists a. split; [set_solver|]. intros x Hx.
    apply list_elem_of_singleton in Hx. lia.
  - destruct IH as (m & Hm & Hmin); [done|].
    destruct (decide (a <= m)).
    + exists a. split; [set_solver|]. intros x Hx.
      apply elem_of_cons in Hx as [Hx|Hx]; [lia|].
      specialize (Hmin x Hx). lia.
    + exists m. split; [set_solver|]. intros x Hx.
      apply elem_of_cons in Hx as [Hx|Hx]; [lia|].
      by apply Hmin.
Qed.

Lemma filter_length_mono (P Q : Z → Prop)
    `{!∀ x, Decision (P x)} `{!∀ x, Decision (Q x)} (l : list Z) :
  (∀ x, x ∈ l → P x → Q x) →
  (length (filter P l) <= length (filter Q l))%nat.
Proof.
  induction l as [|a l IH]; intros HPQ; [done|].
  rewrite !filter_cons.
  assert (length (filter P l) <= length (filter Q l))%nat as Hle.
  { apply IH. intros x Hx. apply HPQ. set_solver. }
  destruct (decide (P a)) as [HP|HP], (decide (Q a)) as [HQ|HQ]; simpl; try lia.
  exfalso. apply HQ, HPQ; [set_solver | done].
Qed.

(** A window that holds more than [n] actions can be moved to start at
    an action. *)
Lemma tooDense_spec w n ts : tooDense w n ts = true ↔ windowExceeded w n ts.
Proof.
  unfold tooDense, windowExceeded. rewrite existsb_exists. split.
  - intros (a & _ & Ha). exists a. by apply Nat.ltb_lt.
  - intros (t & Ht). unfold inWindow in Ht.
    destruct (list_minimum (filter (fun b => t <= b < t + w) ts)) as (m & Hm & Hmin).
    { intros Hnil. rewrite Hnil in Ht. simpl in Ht. lia. }
    apply list_elem_of_filter in Hm as [Hmt Hmts].
    exists m. split; [by apply list_elem_of_In|].
    apply Nat.ltb_lt. eapply Nat.lt_le_trans; [exact Ht|].
    unfold inWindow. apply filter_length_mono. intros x Hx Hxt.
    assert (m <= x) by (apply Hmin, list_elem_of_filter; done). lia.
Qed.

Lemma last_cons_is_Some (x : Z) ts : ∃ final, last (x :: ts) = Some final.
Proof.
  destruct (last (x :: ts)) as [final|] eqn:E; [by exists final|].
  by apply last_None in E.
Qed.

Lemma temporalGate_cons L now first rest final :
  last (first :: rest) = Some final →
  temporalGate L now (first :: rest) =
    if negb (chronological (first :: rest)) then Some TemporalOrder
    else if now + MAX_FUTURE_MS L <? final then Some TemporalFuture
    else if first <? now - MAX_AGE_MS L then Some TemporalPast
    else if MAX_RANGE_MS L <? final - first then Some TemporalRange
    else if negb (gapsAtLeast (MIN_GAP_MS L) (first :: rest)) then Some TemporalGap
    else if tooDense (DENSITY_WINDOW_MS L) (DENSITY_MAX_ACTIONS L) (first :: rest)
         then Some TemporalDensity
    else None.
Proof. intros Hfinal. unfold temporalGate. by rewrite Hfinal. Qed.

Local Ltac gate_step := cbv beta iota delta [negb gateOutcome].

Lemma temporalGate_outcome L now ts :
  gateOutcome L now ts (temporalGate L now ts).
Proof.
  destruct ts as [|first rest].
  { simpl. unfold violatesGate.
    intros [(a & b & (i & Ha & _) & _) | [(x & Hx & _) | [(x & Hx & _)
      | [(x & y & Hx & _) | [(a & b & (i & Ha & _) & _) | (t & Ht)]]]]];
      try done. unfold inWindow in Ht. simpl in Ht. lia. }
  destruct (last_cons_is_Some first rest) as [final Hfinal].
  assert (inFuture L now (first :: rest) ↔ now + MAX_FUTURE_MS L < final) as Hfut.
  { unfold inFuture. rewrite Hfinal. naive_solver. }
  assert (tooOld L now (first :: rest) ↔ first < now - MAX_AGE_MS L) as Hold.
  { unfold tooOld. simpl. naive_solver. }
  assert (rangeTooLarge L (first :: rest) ↔ MAX_RANGE_MS L < final - first) as Hrange.
  { unfold rangeTooLarge. rewrite Hfinal. simpl. naive_solver. }
  rewrite (temporalGate_cons L now first rest final Hfinal).
  destruct (chronological (first :: rest)) eqn:Hchron; gate_step.
  2: { by apply chronological_spec. }
  assert (¬ outOfOrder (first :: rest)) as Hno.
  { rewrite <- chronological_spec. congruence. }
  destruct (now + MAX_FUTURE_MS L <? final) eqn:H1; gate_step.
  { split; [done|]. apply Hfut. lia. }
  assert (¬ inFuture L now (first :: rest)) as Hnf by (rewrite Hfut; lia).
  destruct (first <? now - MAX_AGE_MS L) eqn:H2; gate_step.
  { repeat split; try done. apply Hold. lia. }
  assert (¬ tooOld L now (first :: rest)) as Hnold by (rewrite Hold; lia).
  destruct (MAX_RANGE_MS L <? final - first) eqn:H3; gate_step.
  { repeat split; try done. apply Hrange. lia. }
  assert (¬ rangeTooLarge L (first :: rest)) as Hnr by (rewrite Hrange; lia).
  destruct (gapsAtLeast (MIN_GAP_MS L) (first :: rest)) eqn:H4; gate_step.
  2: { split; [done|]. by apply gapsAtLeast_spec. }
  assert (¬ firedTooQuickly (MIN_GAP_MS L) (first :: rest)) as Hng.
  { rewrite <- gapsAtLeast_spec. congruence. }
  destruct (tooDense _ _ _) eqn:H5; gate_step.
  { repeat split; try done. by apply tooDense_spec. }
  unfold violatesGate. rewrite <- tooDense_spec. intuition congruence.
Qed.

Lemma temporalGate_isTemporal L now ts e :
  temporalGate L now ts = Some e → isTemporal e = true.
Proof.
  intros He. pose proof (temporalGate_outcome L now ts) as H.
  rewrite He in H. by destruct e.
Qed.

Lemma temporalGate_violates L now ts :
  violatesGate L now ts → is_Some (temporalGate L now ts).
Proof.
  intros Hv. pose proof (temporalGate_outcome L now ts) as H.
  destruct (temporalGate L now ts); [by eexists|]. by destruct H.
Qed.

Lemma temporalGate_gap L now ts :
  temporalGate L now ts = Some TemporalGap ↔
  passesBeforeGap L now ts ∧ firedTooQuickly (MIN_GAP_MS L) ts.
Proof.
  pose proof (temporalGate_outcome L now ts) as H. split.
  - intros He. by rewrite He in H.
  - intros ((Ho & Hf & Hp & Hr) & Hg).
    destruct (temporalGate L now ts) as [[]|]; simpl in H;
      try done; try tauto.
    exfalso. apply H. unfold violatesGate. tauto.
Qed.

Lemma temporalGate_density L now ts :
  temporalGate L now ts = Some TemporalDensity ↔
  passesBeforeGap L now ts ∧ ¬ firedTooQuickly (MIN_GAP_MS L) ts
  ∧ windowExceeded (DENSITY_WINDOW_MS L) (DENSITY_MAX_ACTIONS L) ts.
Proof.
  pose proof (temporalGate_outcome L now ts) as H. split.
  - intros He. by rewrite He in H.
  - intros ((Ho & Hf & Hp & Hr) & Hg & Hd).
    destruct (temporalGate L now ts) as [[]|]; simpl in H;
      try done; try tauto.
    exfalso. apply H. unfold violatesGate. tauto.
Qed.

Lemma firedTooQuickly_pair gap (a b : Z) :
  firedTooQuickly gap [a; b] ↔ b - a < gap.
Proof.
  split.
  - intros (x & y & (i & Hx & Hy) & Hlt).
    destruct i as [|[|i]]; simpl in *; simplify_eq; lia.
  - intros Hlt. exists a, b. split; [by exists 0%nat | done].
Qed.

Lemma firedTooQuickly_triple gap (a b c : Z) :
  firedTooQuickly gap [a; b; c] ↔ b - a < gap ∨ c - b < gap.
Proof.
  split.
  - intros (x & y & (i & Hx & Hy) & Hlt).
    destruct i as [|[|[|i]]]; simpl in *; simplify_eq; lia.
  - intros [Hlt|Hlt].
    + exists a, b. split; [by exists 0%nat | done].
    + exists b, c. split; [by exists 1%nat | done].
Qed.

Lemma inWindow_triple t w (a b c : Z) :
  (2 < inWindow t w [a; b; c])%nat ↔
  (t <= a < t + w) ∧ (t <= b < t + w) ∧ (t <= c < t + w).
Proof.
  unfold inWindow. rewrite !filter_cons, filter_nil.
  repeat case_decide; simpl; split; intros; try lia; tauto.
Qed.

Lemma inWindow_le_length t w ts : (inWindow t w ts <= length ts)%nat.
Proof. unfold inWindow. apply length_filter. Qed.

Lemma inFuture_iff L now ts final :
  last ts = Some final → inFuture L now ts ↔ now + MAX_FUTURE_MS L < final.
Proof. intros Hfinal. unfold inFuture. rewrite Hfinal. naive_solver. Qed.

Lemma tooOld_iff L now ts first :
  head ts = Some first → tooOld L now ts ↔ first < now - MAX_AGE_MS L.
Proof. intros Hfirst. unfold tooOld. rewrite Hfirst. naive_solver. Qed.

Lemma rangeTooLarge_iff L ts first final :
  head ts = Some first → last ts = Some final →
  rangeTooLarge L ts ↔ MAX_RANGE_MS L < final - first.
Proof.
  intros Hfirst Hfinal. unfold rangeTooLarge. rewrite Hfirst, Hfinal. naive_solver.
Qed.

Lemma outOfOrder_pair (a b : Z) : outOfOrder [a; b] ↔ b < a.
Proof.
  split.
  - intros (x & y & (i & Hx & Hy) & Hlt).
    destruct i as [|[|i]]; simpl in *; simplify_eq; lia.
  - intros Hlt. exists a, b. split; [by exists 0%nat | done].
Qed.

Lemma outOfOrder_triple (a b c : Z) : outOfOrder [a; b; c] ↔ b < a ∨ c < b.
Proof.
  split.
  - intros (x & y & (i & Hx & Hy) & Hlt).
    destruct i as [|[|[|i]]]; simpl in *; simplify_eq; lia.
  - intros [Hlt|Hlt].
    + exists a, b. split; [by exists 0%nat | done].
    + exists b, c. split; [by exists 1%nat | done].
Qed.

Lemma inWindow_triple_shift t w d (a b c : Z) :
  inWindow (t + d) w [a + d; b + d; c + d] = inWindow t w [a; b; c].
Proof.
  unfold inWindow. rewrite !filter_cons, !filter_nil.
  repeat case_decide; simpl; lia.
Qed.

Lemma jest_suite_cases L :
  jest_suite L = true →
  temporalGate L T0 (JEST_QUICK T0) = Some TemporalGap
  ∧ temporalGate L T0 (JEST_DENSE T0) = Some TemporalDensity.
Proof.
  unfold jest_suite, gateIs. rewrite !andb_true_iff, !bool_decide_eq_true.
  tauto.
Qed.

(** What the cases of the suite say about the limits. *)
Lemma jest_suite_limits L :
  jest_suite L = true →
  0 <= MAX_FUTURE_MS L < 2 * 60 * 1000
  ∧ 4 * 60 * 1000 <= MAX_AGE_MS L < 10 * 60 * 1000
  ∧ 60 * 1000 <= MAX_RANGE_MS L < 3 * 60 * 1000
  ∧ 95 < MIN_GAP_MS L <= 150
  ∧ (DENSITY_MAX_ACTIONS L < 3)%nat
  ∧ (DENSITY_MAX_ACTIONS L = 2%nat → 350 < DENSITY_WINDOW_MS L).
Proof.
  unfold jest_suite, gateIs. rewrite !andb_true_iff, !bool_decide_eq_true.
  intros (((((((Hsingle & Hmultiple) & _) & Hfuture) & Hpast) & Hrange)
            & Hquick) & Hdense).
  pose proof (temporalGate_outcome L T0 (JEST_SINGLE T0)) as H1.
  pose proof (temporalGate_outcome L T0 (JEST_MULTIPLE T0)) as H2.
  pose proof (temporalGate_outcome L T0 (JEST_FUTURE T0)) as H3.
  pose proof (temporalGate_outcome L T0 (JEST_PAST T0)) as H4.
  pose proof (temporalGate_outcome L T0 (JEST_RANGE T0)) as H5.
  pose proof (temporalGate_outcome L T0 (JEST_QUICK T0)) as H6.
  pose proof (temporalGate_outcome L T0 (JEST_DENSE T0)) as H7.
  rewrite Hsingle in H1. rewrite Hmultiple in H2. rewrite Hfuture in H3.
  rewrite Hpast in H4. rewrite Hrange in H5. rewrite Hquick in H6.
  rewrite Hdense in H7.
  unfold gateOutcome, violatesGate, passesBeforeGap in *.
  unfold JEST_SINGLE, JEST_MULTIPLE, JEST_FUTURE, JEST_PAST, JEST_RANGE,
    JEST_QUICK, JEST_DENSE in *.
  rewrite (inFuture_iff L T0 [T0] T0) in H1 by done.
  rewrite (tooOld_iff L T0 [T0] T0) in H1 by done.
  rewrite (rangeTooLarge_iff L [T0] T0 T0) in H1 by done.
  rewrite (rangeTooLarge_iff L [T0 - 60 * 1000; T0] (T0 - 60 * 1000) T0) in H2 by done.
  destruct H3 as [_ H3]. rewrite (inFuture_iff L T0 [_] _ eq_refl) in H3.
  destruct H4 as (_ & _ & H4). rewrite (tooOld_iff L T0 [_] _ eq_refl) in H4.
  destruct H5 as (_ & _ & H5 & H5'). rewrite (tooOld_iff L T0 [_; _] _ eq_refl) in H5.
  rewrite (rangeTooLarge_iff L [_; _] _ _ eq_refl eq_refl) in H5'.
  destruct H6 as [_ H6]. rewrite firedTooQuickly_pair in H6.
  destruct H7 as (_ & H7 & (t & Ht)). rewrite firedTooQuickly_triple in H7.
  pose proof (inWindow_le_length t (DENSITY_WINDOW_MS L)
                [T0 - 400; T0 - 250; T0 - 50]) as Hle. simpl in Hle.
  repeat split; try lia.
  intros Hn. rewrite Hn in Ht. apply inWindow_triple in Ht. lia.
Qed.

(** The three actions of the density case are rejected at any time. *)
Lemma jest_dense_rejected L now :
  jest_suite L = true →
  temporalGate L now (JEST_DENSE now) = Some TemporalDensity.
Proof.
  intros Hjest. pose proof (jest_suite_limits L Hjest) as Hlimits.
  destruct (jest_suite_cases L Hjest) as [_ Hdense].
  apply temporalGate_density in Hdense as (_ & _ & (t & Ht)).
  apply temporalGate_density. unfold passesBeforeGap, JEST_DENSE in *.
  rewrite outOfOrder_triple, firedTooQuickly_triple.
  rewrite (inFuture_iff L now [_; _; _] _ eq_refl).
  rewrite (tooOld_iff L now [_; _; _] _ eq_refl).
  rewrite (rangeTooLarge_iff L [_; _; _] _ _ eq_refl eq_refl).
  repeat split; try lia.
  exists (t + (now - T0)).
  replace (now - 400) with (T0 - 400 + (now - T0)) by lia.
  replace (now - 250) with (T0 - 250 + (now - T0)) by lia.
  replace (now - 50) with (T0 - 50 + (now - T0)) by lia.
  by rewrite inWindow_triple_shift.
Qed.

(** So are the two actions of the gap case. *)
Lemma jest_quick_rejected L now :
  jest_suite L = true →
  temporalGate L now (JEST_QUICK now) = Some TemporalGap.
Proof.
  intros Hjest. pose proof (jest_suite_limits L Hjest) as Hlimits.
  apply temporalGate_gap. unfold passesBeforeGap, JEST_QUICK.
  rewrite outOfOrder_pair, firedTooQuickly_pair.
  rewrite (inFuture_iff L now [_; _] _ eq_refl).
  rewrite (tooOld_iff L now [_; _] _ eq_refl).
  rewrite (rangeTooLarge_iff L [_; _] _ _ eq_refl eq_refl).
  repeat split; lia.
Qed.

Lemma temporalGate_past L now ts :
  ¬ outOfOrder ts → ¬ inFuture L now ts → tooOld L now ts →
  temporalGate L now ts = Some TemporalPast.
Proof.
  intros Horder Hfuture Hold.
  pose proof (temporalGate_outcome L now ts) as H.
  destruct (temporalGate L now ts) as [[]|]; simpl in H;
    unfold passesBeforeGap, violatesGate in H; try done; tauto.
Qed.

Lemma jest_old_rejected L :
  jest_suite L = true →
  temporalGate L T0 (OLD_QUICK T0) = Some TemporalPast
  ∧ temporalGate L T0 (OLD_DENSE T0) = Some TemporalPast.
Proof.
  intros Hjest. pose proof (jest_suite_limits L Hjest) as Hlimits.
  unfold OLD_QUICK, OLD_DENSE. split; apply temporalGate_past.
  - rewrite outOfOrder_pair. lia.
  - rewrite (inFuture_iff L T0 [_; _] _ eq_refl). lia.
  - rewrite (tooOld_iff L T0 [_; _] _ eq_refl). lia.
  - rewrite outOfOrder_triple. lia.
  - rewrite (inFuture_iff L T0 [_; _; _] _ eq_refl). lia.
  - rewrite (tooOld_iff L T0 [_; _; _] _ eq_refl). lia.
Qed.

Lemma SPEC_LIMITS_fail_jest_suite : jest_suite SPEC_LIMITS = false.
Proof. vm_compute. reflexivity. Qed.

Lemma SAMPLE_LIMITS_pass_jest_suite : jest_suite SAMPLE_LIMITS = true.
Proof. vm_compute. reflexivity. Qed.

End TemporalGate.

(** ** Replay *)

Section Replay.

Context (c : Catalog).

Implicit Types (state : GameState) (inv : gmap string Decimal) (e : Error).

Lemma subItem_error name a inv e :
  subItem name a inv = Err e → e = InsufficientInventory name.
Proof. unfold subItem. case_match; naive_solver. Qed.

Lemma subIngredients_error amount ings inv e :
  subIngredients amount ings inv = Err e → isTemporal e = false.
Proof.
  revert inv. induction ings as [|[name cost] ings IH]; intros inv; [done|].
  simpl. destruct (subItem name (cost * amount) inv) as [inv'|e'] eqn:Hsub; simpl.
  - apply IH.
  - intros [= <-]. by apply subItem_error in Hsub as ->.
Qed.

Lemma takeStock_error item amount stk e :
  takeStock item amount stk = Err e → e = InsufficientStock item.
Proof. unfold takeStock. repeat case_match; naive_solver. Qed.

Lemma dispatch_error_not_temporal state action e :
  dispatch c state action = Err e → isTemporal e = false.
Proof.
  unfold dispatch. destruct (body action) as [index item|index|index|item amount|item amount|item|tag].
  - unfold plant. destruct (crops c !! item); [|naive_solver].
    destruct (subItem _ _ _) eqn:Hsub; simpl.
    + repeat case_match; naive_solver.
    + intros [= <-]. by apply subItem_error in Hsub as ->.
  - unfold harvest. repeat case_match; naive_solver.
  - unfold chop. destruct (subItem _ _ _) eqn:Hsub; simpl.
    + repeat case_match; simpl; naive_solver.
    + intros [= <-]. by apply subItem_error in Hsub as ->.
  - unfold craft. destruct (recipes c !! item) as [recipe|]; [|naive_solver].
    destruct (craftable recipe); simpl; [|naive_solver].
    destruct (subIngredients _ _ _) eqn:Hsub; simpl.
    + case_match; [naive_solver|].
      destruct (takeStock _ _ _) eqn:Hstk; simpl; [done|].
      intros [= <-]. by apply takeStock_error in Hstk as ->.
    + intros [= <-]. by apply subIngredients_error in Hsub.
  - unfold sell. destruct (sellPrices c !! item); [|naive_solver].
    case_decide; [naive_solver|]. case_match; [naive_solver|].
    destruct (subItem _ _ _) eqn:Hsub; simpl; [done|].
    intros [= <-]. by apply subItem_error in Hsub as ->.
  - case_match; naive_solver.
  - naive_solver.
Qed.

Lemma replay_error_not_temporal state actions e :
  replay c state actions = Err e → isTemporal e = false.
Proof.
  revert state. induction actions as [|action actions IH]; intros state; [done|].
  simpl. destruct (dispatch c state action) as [state'|e'] eqn:Hd; simpl.
  - apply IH.
  - intros [= <-]. by apply dispatch_error_not_temporal in Hd.
Qed.

Lemma replay_app state pre post :
  replay c state (pre ++ post) =
    (state' <-! replay c state pre; replay c state' post).
Proof.
  revert state. induction pre as [|action pre IH]; intros state; [done|].
  simpl. destruct (dispatch c state action); simpl; [apply IH | done].
Qed.

(** A temporal error of [processActions] is the verdict of the gate. *)
Lemma processActions_temporal L now state actions e :
  isTemporal e = true →
  processActions L c now state actions = Err e ↔
  temporalGate L now (createdAt <$> actions) = Some e.
Proof.
  intros He. unfold processActions.
  destruct (temporalGate L now (createdAt <$> actions)) as [e'|] eqn:Hgate.
  - naive_solver.
  - split; [|done]. intros Hr. apply replay_error_not_temporal in Hr. congruence.
Qed.

End Replay.

(** ** The temporal gate in [processActions] and [save] *)

Lemma createdAt_sellsAt (ts : list Z) : createdAt <$> sellsAt ts = ts.
Proof.
  unfold sellsAt. induction ts as [|t ts IH]; [done|].
  rewrite !fmap_cons. simpl. by rewrite IH.
Qed.

(** C4. Temporal rejection atomicity: a batch that violates one of the
    temporal checks (order, future bound, age bound, range bound, gap,
    density) makes [processActions] throw a temporal error, whatever the farm
    state, and [save] then returns an error and leaves the repository and the
    event store as they were. *)
Theorem temporal_rejection_atomic (L : Limits) (c : Catalog) (now : Z)
    (state : GameState) (actions : list Action) :
  violatesGate L now (createdAt <$> actions) →
  (∃ e, isTemporal e = true ∧ processActions L c now state actions = Err e)
  ∧ ∀ (w : World) (farmId : Z) (account : string),
      ∃ e, save L c now w farmId account actions = (Err e, w).
Proof.
  intros [e He]%temporalGate_violates. split.
  - exists e. split; [by eapply temporalGate_isTemporal|].
    unfold processActions. by rewrite He.
  - intros w farmId account. unfold save.
    destruct (loadFarm w account farmId) as [doc|]; [|by eexists].
    destruct (makeGame c (docGameState doc)) as [loaded|]; [|by eexists].
    destruct (reconcile c _ _ loaded) as [state0|]; [|by eexists].
    unfold processActions. rewrite He. by eexists.
Qed.

Lemma temporal_rejection_atomic_witness :
  violatesGate SAMPLE_LIMITS T0 (createdAt <$> JEST_UNORDERED)
  ∧ (∃ e, isTemporal e = true
          ∧ processActions SAMPLE_LIMITS SAMPLE_CATALOG T0 SEED_FARM JEST_UNORDERED = Err e)
  ∧ ∀ (w : World) (farmId : Z) (account : string),
      ∃ e, save SAMPLE_LIMITS SAMPLE_CATALOG T0 w farmId account JEST_UNORDERED = (Err e, w).
Proof.
  assert (violatesGate SAMPLE_LIMITS T0 (createdAt <$> JEST_UNORDERED)) as Hv.
  { left. exists T0, (T0 - 60 * 1000). split; [by exists 0%nat | reflexivity]. }
  split; [exact Hv|].
  exact (temporal_rejection_atomic SAMPLE_LIMITS SAMPLE_CATALOG T0 SEED_FARM
           JEST_UNORDERED Hv).
Defined.

Lemma processActions_violates (L : Limits) (c : Catalog) (now : Z)
    (state : GameState) (actions : list Action) :
  violatesGate L now (createdAt <$> actions) →
  ∃ e, isTemporal e = true ∧ processActions L c now state actions = Err e.
Proof.
  intros [e He]%temporalGate_violates. exists e.
  split; [by eapply temporalGate_isTemporal|].
  unfold processActions. by rewrite He.
Qed.







(** ** Crafting *)

Section Craft.

Context (c : Catalog).

Implicit Types (state : GameState) (inv : gmap string Decimal).

Lemma qty_setQty name q inv other :
  qty (setQty name q inv) other = if decide (other = name) then q else qty inv other.
Proof.
  unfold setQty, qty. destruct (decide (q = 0)) as [->|Hq];
    destruct (decide (other = name)) as [->|Hne].
  - by rewrite lookup_delete_eq.
  - by rewrite lookup_delete_ne.
  - by rewrite lookup_insert_eq.
  - by rewrite lookup_insert_ne.
Qed.

Lemma costOf_not_listed ings name :
  name ∉ ings.*1 → costOf ings name = 0.
Proof.
  induction ings as [|[n cost] ings IH]; [done|]. simpl.
  intros Hnot. apply not_elem_of_cons in Hnot as [Hne Hnot].
  case_decide; [congruence | by apply IH].
Qed.

(** With distinct ingredients that the inventory covers, the ingredients
    are subtracted, each at its cost times the amount. *)
Lemma subIngredients_ok amount ings inv :
  NoDup ings.*1 →
  Forall (fun ing => ing.2 * amount <= qty inv ing.1) ings →
  ∃ inv', subIngredients amount ings inv = Ok inv'
          ∧ ∀ name, qty inv' name = qty inv name - costOf ings name * amount.
Proof.
  revert inv. induction ings as [|[n cost] ings IH]; intros inv Hnodup Hcover.
  { exists inv. split; [done|]. intros name. simpl. lia. }
  apply NoDup_cons in Hnodup as [Hn Hnodup].
  apply Forall_cons in Hcover as [Hfirst Hcover]. simpl in Hfirst.
  simpl. unfold subItem at 1.
  destruct (qty inv n <? cost * amount) eqn:Hlt; [lia|]. simpl.
  destruct (IH (setQty n (qty inv n - cost * amount) inv) Hnodup)
    as (inv' & Hsub & Hqty).
  { apply Forall_forall. intros [m cm] Hin. simpl.
    rewrite Forall_forall in Hcover. specialize (Hcover _ Hin). simpl in Hcover.
    rewrite qty_setQty. case_decide as Hm; [|done].
    subst m. exfalso. apply Hn. apply list_elem_of_fmap. by exists (n, cm). }
  exists inv'. split; [done|]. intros name. rewrite Hqty, qty_setQty.
  destruct (decide (n = name)) as [->|Hne].
  - rewrite decide_True by done. rewrite costOf_not_listed by done. lia.
  - rewrite decide_False by congruence. lia.
Qed.

Lemma craft_limited state item amount :
  limited c item → craft c state item amount = Err (NotCraftable item).
Proof. intros (recipe & Hrecipe & Hflag). unfold craft. by rewrite Hrecipe, Hflag. Qed.

(** A successful craft is the craft of an item flagged craftable. *)
Lemma craft_ok_craftable state item amount state' :
  craft c state item amount = Ok state' →
  ∃ recipe, recipes c !! item = Some recipe ∧ craftable recipe = true.
Proof.
  unfold craft. destruct (recipes c !! item) as [recipe|]; [|done].
  destruct (craftable recipe) eqn:Hflag; simpl; [|done]. intros _. by exists recipe.
Qed.

(** C2. An [item.crafted] action on a recipe flagged craftable, with the
    inventory covering every ingredient cost times the amount, the balance
    covering the price times the amount and the stock covering the amount:
    the transition subtracts the ingredients and the SFL, subtracts the
    amount from the item's stock and adds the amount of the item to the
    inventory; fields and trees are untouched. *)
Theorem craft_effect state item amount (at_ : Z) recipe (supply : Decimal) :
  recipes c !! item = Some recipe →
  craftable recipe = true →
  NoDup (ingredients recipe).*1 →
  Forall (fun ing => ing.2 * amount <= qty (inventory state) ing.1)
    (ingredients recipe) →
  sflPrice recipe * amount <= balance state →
  stock state !! item = Some supply →
  ofInt amount <= supply →
  ∃ state',
    dispatch c state (mkAction at_ (ItemCrafted item amount)) = Ok state'
    ∧ balance state' = balance state - sflPrice recipe * amount
    ∧ stock state' = <[item := supply - ofInt amount]> (stock state)
    ∧ (∀ name,
         qty (inventory state') name =
           qty (inventory state) name
           - costOf (ingredients recipe) name * amount
           + (if decide (name = item) then ofInt amount else 0))
    ∧ fields state' = fields state
    ∧ trees state' = trees state.
Proof.
  intros Hrecipe Hflag Hnodup Hcover Hbal Hstock Hsupply.
  destruct (subIngredients_ok amount (ingredients recipe) (inventory state)
              Hnodup Hcover) as (inv & Hsub & Hqty).
  unfold dispatch, craft. simpl. rewrite Hrecipe, Hflag. simpl.
  rewrite Hsub. simpl.
  destruct (balance state <? sflPrice recipe * amount) eqn:Hlt; [lia|].
  unfold takeStock. rewrite Hstock.
  destruct (supply <? ofInt amount) eqn:Hlt'; [lia|]. simpl.
  eexists. split; [reflexivity|]. simpl. repeat split.
  intros name. unfold addItem. rewrite qty_setQty, !Hqty.
  case_decide as Hname; [subst name|]; lia.
Qed.

End Craft.

Lemma craft_effect_witness :
  ∃ state',
    dispatch SAMPLE_CATALOG JEST_STATE (mkAction T0 (ItemCrafted "Potato Seed" 5))
      = Ok state'
    ∧ balance state' = ofInt 20 - sfl 20 * 5
    ∧ stock state' !! "Potato Seed" = Some (ofInt 2)
    ∧ qty (inventory state') "Potato Seed" = ofInt 5.
Proof.
  destruct (craft_effect SAMPLE_CATALOG JEST_STATE "Potato Seed" 5 T0
              (mkRecipe [] (sfl 20) true) (ofInt 7))
    as (state' & Hrun & Hbal & Hstock & Hinv & _).
  - by vm_compute.
  - reflexivity.
  - simpl. constructor.
  - simpl. constructor.
  - by vm_compute.
  - by vm_compute.
  - by vm_compute.
  - exists state'. split; [exact Hrun|]. split; [exact Hbal|]. split.
    + rewrite Hstock. by rewrite lookup_insert_eq.
    + rewrite Hinv. by vm_compute.
Defined.

(** ** Limited items *)

Lemma replay_limited_craft (c : Catalog) (state : GameState)
    (pre post : list Action) (at_ : Z) (item : ItemName) (amount : Z) :
  limited c item →
  (∃ e, replay c state (pre ++ mkAction at_ (ItemCrafted item amount) :: post) = Err e)
  ∧ ∀ state1, replay c state pre = Ok state1 →
      replay c state (pre ++ mkAction at_ (ItemCrafted item amount) :: post)
        = Err (NotCraftable item).
Proof.
  intros Hlimited. rewrite replay_app.
  destruct (replay c state pre) as [state1|e] eqn:Hpre; simpl.
  - unfold dispatch. simpl. rewrite craft_limited by done. simpl.
    split; [by eexists | done].
  - split; [by eexists | done].
Qed.

Section LimitedItems.

Context (c : Catalog).

Implicit Types (state : GameState) (inv : gmap string Decimal).

Lemma ONE_positive : 0 < ONE.
Proof. reflexivity. Qed.

Lemma subItem_qty name a inv inv' other :
  subItem name a inv = Ok inv' →
  qty inv' other = if decide (other = name) then qty inv name - a else qty inv other.
Proof.
  unfold subItem. destruct (qty inv name <? a); [done|].
  intros [= <-]. apply qty_setQty.
Qed.

Lemma subIngredients_other amount ings inv inv' other :
  subIngredients amount ings inv = Ok inv' →
  other ∉ ings.*1 → qty inv' other = qty inv other.
Proof.
  revert inv. induction ings as [|[name cost] ings IH]; intros inv Hsub Hother.
  { by injection Hsub as <-. }
  apply not_elem_of_cons in Hother as [Hne Hother]. simpl in Hsub, Hne.
  destruct (subItem name (cost * amount) inv) as [inv1|e] eqn:Hfirst; [|done].
  simpl in Hsub. rewrite (IH inv1 Hsub Hother).
  rewrite (subItem_qty _ _ _ _ other Hfirst). by rewrite decide_False.
Qed.

(** An action that succeeds raises the quantity of no limited item, in a
    catalog that gives limited items no source. *)
Lemma dispatch_no_limited state action state' name :
  yieldsNoLimited c → limited c name →
  dispatch c state action = Ok state' →
  qty (inventory state') name <= qty (inventory state) name.
Proof.
  intros (Hcrops & Hwood & Hrecipes & Hredeem) Hlimited.
  pose proof ONE_positive as Hone.
  unfold dispatch. destruct (body action) as [index item|index|index|item amount
    |item amount|item|tag].
  - unfold plant. destruct (crops c !! item); [|done].
    destruct (subItem item ONE (inventory state)) as [inv|e] eqn:Hsub; [|done].
    simpl. destruct (decide (is_Some (fields state !! index))); [done|].
    destruct (negb _); [done|]. intros [= <-]. simpl.
    rewrite (subItem_qty _ _ _ _ name Hsub).
    destruct (decide (name = item)) as [->|]; lia.
  - unfold harvest. destruct (fields state !! index) as [field|]; [|done].
    destruct (crops c !! fieldItem field) as [crop|] eqn:Hcrop; [|done].
    destruct (_ <? _); [done|]. intros [= <-]. simpl.
    unfold addItem. rewrite qty_setQty. rewrite decide_False; [lia|].
    intros ->. by apply (Hcrops _ _ Hcrop).
  - unfold chop.
    destruct (subItem "Axe" ONE (inventory state)) as [inv|e] eqn:Hsub; [|done].
    simpl. destruct (trees state !! index) as [tree|]; [|done].
    match goal with
    | |- rbind ?available _ = _ → _ => destruct available as [supply|e]; [|done]
    end.
    simpl. intros [= <-]. simpl.
    unfold addItem. rewrite qty_setQty. rewrite decide_False by (by intros ->).
    rewrite (subItem_qty _ _ _ _ name Hsub).
    destruct (decide (name = "Axe")) as [->|]; lia.
  - unfold craft. destruct (recipes c !! item) as [recipe|] eqn:Hrecipe; [|done].
    destruct (craftable recipe) eqn:Hflag; simpl; [|done].
    destruct (subIngredients amount (ingredients recipe) (inventory state))
      as [inv|e] eqn:Hsub; [|done].
    simpl. destruct (_ <? _); [done|].
    destruct (takeStock item amount (stock state)) as [stk|e]; [|done].
    simpl. intros [= <-]. simpl.
    unfold addItem. rewrite qty_setQty. rewrite decide_False.
    + rewrite (subIngredients_other _ _ _ _ name Hsub); [lia|].
      intros ([ing cost] & -> & Hin)%list_elem_of_fmap.
      specialize (Hrecipes _ _ Hrecipe Hflag). rewrite Forall_forall in Hrecipes.
      by apply (Hrecipes _ Hin).
    + intros ->. destruct Hlimited as (other & Hother & Hfalse). congruence.
  - unfold sell. destruct (sellPrices c !! item); [|done].
    case_decide; [done|]. destruct (amount <=? 0) eqn:Hamount; [done|].
    destruct (subItem item (ofInt amount) (inventory state)) as [inv|e] eqn:Hsub;
      [|done].
    simpl. intros [= <-]. simpl.
    rewrite (subItem_qty _ _ _ _ name Hsub). unfold ofInt.
    apply Z.leb_gt in Hamount.
    destruct (decide (name = item)) as [->|]; nia.
  - destruct (redeem c state item) as [after|] eqn:Hafter; [|done].
    intros [= <-]. by eapply Hredeem.
  - done.
Qed.

Lemma replay_no_limited state actions state' name :
  yieldsNoLimited c → limited c name →
  replay c state actions = Ok state' →
  qty (inventory state') name <= qty (inventory state) name.
Proof.
  intros Hcatalog Hlimited. revert state.
  induction actions as [|action actions IH]; intros state Hrun.
  { injection Hrun as <-. lia. }
  simpl in Hrun. destruct (dispatch c state action) as [state1|e] eqn:Hstep; [|done].
  simpl in Hrun.
  pose proof (dispatch_no_limited _ _ _ name Hcatalog Hlimited Hstep).
  specialize (IH _ Hrun). lia.
Qed.

End LimitedItems.


Lemma yieldsNoLimited_sample : yieldsNoLimited SAMPLE_CATALOG.
Proof.
  split; [|split; [|split]].
  - apply (bool_decide_unpack _). vm_compute. reflexivity.
  - apply (bool_decide_unpack _). vm_compute. reflexivity.
  - apply (bool_decide_unpack _). vm_compute. reflexivity.
  - intros state item state' name Hredeem. discriminate Hredeem.
Qed.



(** ** Reconcile *)

Section Reconcile.

Context (c : Catalog).

Lemma makeInventory_snoc (amounts : list string) (amount : string) :
  makeInventory c (amounts ++ [amount]) =
    makeInventoryStep c (makeInventory c amounts) (length amounts, amount).
Proof.
  unfold makeInventory. rewrite imap_app, foldl_app. simpl.
  by rewrite Nat.add_0_r.
Qed.

Lemma makeInventory_total (amounts : list string) :
  Forall (fun amount => is_Some (parseWei amount)) amounts →
  is_Some (makeInventory c amounts).
Proof.
  induction amounts as [|amount amounts IH] using rev_ind; intros Hall.
  { by eexists. }
  apply Forall_app in Hall as [Hall Hlast].
  apply Forall_singleton in Hlast as [w Hw].
  destruct (IH Hall) as [items Hitems].
  rewrite makeInventory_snoc, Hitems. unfold makeInventoryStep. simpl.
  rewrite Hw. simpl. case_decide; by eexists.
Qed.

(** The converted inventory holds, for each listed item, the on-chain
    value at its position when that is not zero, and nothing else. *)
Lemma makeInventory_lookup (amounts : list string) (items : gmap string Decimal) :
  NoDup (inventoryItems c) →
  (length amounts <= length (inventoryItems c))%nat →
  makeInventory c amounts = Some items →
  (∀ i name, inventoryItems c !! i = Some name →
     items !! name = onchainValue c amounts i name)
  ∧ (∀ name, name ∉ inventoryItems c → items !! name = None).
Proof.
  intros Hnodup. revert items.
  induction amounts as [|amount amounts IH] using rev_ind; intros items Hlen Hmake.
  { injection Hmake as <-. split; intros; by rewrite lookup_empty. }
  rewrite length_app in Hlen. simpl in Hlen.
  rewrite makeInventory_snoc in Hmake.
  destruct (makeInventory c amounts) as [items0|] eqn:Hitems0; [|done].
  destruct (IH items0) as [IHin IHout]; [lia | done |].
  unfold makeInventoryStep in Hmake. simpl in Hmake.
  destruct (parseWei amount) as [w|] eqn:Hw; [|done]. simpl in Hmake.
  destruct (lookup_lt_is_Some_2 (inventoryItems c) (length amounts)) as [n Hn]; [lia|].
  rewrite Hn in Hmake. simpl in Hmake.
  assert (∀ i name, inventoryItems c !! i = Some name → i ≠ length amounts →
            onchainValue c (amounts ++ [amount]) i name = onchainValue c amounts i name)
    as Hother.
  { intros i name _ Hi. unfold onchainValue.
    destruct (decide (i < length amounts)%nat).
    - by rewrite lookup_app_l.
    - rewrite (lookup_ge_None_2 amounts) by lia.
      rewrite lookup_ge_None_2; [done|]. rewrite length_app. simpl. lia. }
  assert (onchainValue c (amounts ++ [amount]) (length amounts) n =
            if decide (fromWei w (getItemUnit c (Some n)) = 0) then None
            else Some (fromWei w (getItemUnit c (Some n)))) as Hhere.
  { unfold onchainValue. rewrite lookup_app_r by lia.
    rewrite Nat.sub_diag. simpl. by rewrite Hw. }
  assert (items0 !! n = None) as Hfresh.
  { rewrite (IHin _ _ Hn). unfold onchainValue.
    by rewrite lookup_ge_None_2. }
  case_decide as Hzero; injection Hmake as <-.
  - split; [|done]. intros i name Hname.
    destruct (decide (i = length amounts)) as [->|Hi].
    + assert (name = n) as -> by congruence. by rewrite Hhere, Hfresh.
    + rewrite Hother by done. by apply IHin.
  - split.
    + intros i name Hname.
      destruct (decide (i = length amounts)) as [->|Hi].
      * assert (name = n) as -> by congruence.
        by rewrite Hhere, lookup_insert_eq.
      * rewrite Hother by done. rewrite lookup_insert_ne; [by apply IHin|].
        intros ->. apply Hi. symmetry. by eapply NoDup_lookup.
    + intros name Hname. rewrite lookup_insert_ne; [by apply IHout|].
      intros ->. apply Hname. by eapply list_elem_of_lookup_2.
Qed.

(** The reconcile step on its own: the balance is the on-chain balance, an
    item that is above zero on-chain has the on-chain value, an item that is
    zero on-chain keeps the farm's entry, and stock, fields and trees are
    untouched. *)
Lemma reconcile_spec (balanceWei : string) (bal : Z)
    (amounts : list string) (state : GameState) :
  NoDup (inventoryItems c) →
  (length amounts <= length (inventoryItems c))%nat →
  parseWei balanceWei = Some bal →
  Forall (fun amount => is_Some (parseWei amount)) amounts →
  ∃ state',
    reconcile c balanceWei amounts state = Some state'
    ∧ balance state' = fromWei bal ether
    ∧ (∀ i name amount w,
         inventoryItems c !! i = Some name →
         amounts !! i = Some amount →
         parseWei amount = Some w →
         (0 < fromWei w (getItemUnit c (Some name)) →
          inventory state' !! name = Some (fromWei w (getItemUnit c (Some name))))
         ∧ (fromWei w (getItemUnit c (Some name)) = 0 →
            inventory state' !! name = inventory state !! name))
    ∧ stock state' = stock state
    ∧ fields state' = fields state
    ∧ trees state' = trees state.
Proof.
  intros Hnodup Hlen Hbal Hall.
  destruct (makeInventory_total amounts Hall) as [items Hitems].
  destruct (makeInventory_lookup amounts items Hnodup Hlen Hitems) as [Hin _].
  unfold reconcile. rewrite Hbal, Hitems. simpl.
  eexists. split; [reflexivity|]. simpl. split; [done|]. split; [|done].
  intros i name amount w Hname Hamount Hw.
  assert (onchainValue c amounts i name =
            if decide (fromWei w (getItemUnit c (Some name)) = 0) then None
            else Some (fromWei w (getItemUnit c (Some name)))) as Hvalue.
  { unfold onchainValue. rewrite Hamount. simpl. by rewrite Hw. }
  split.
  - intros Hpos. apply lookup_union_Some_l.
    rewrite (Hin _ _ Hname), Hvalue. by rewrite decide_False by lia.
  - intros Hzero. apply lookup_union_r.
    rewrite (Hin _ _ Hname), Hvalue. by rewrite decide_True.
Qed.

(** The compare-and-swap of a save succeeds on the document it loaded, and
    the repository then holds the game state it was given. *)
Lemma updateGameState_loaded (w : World) (account : string) (farmId : Z)
    (doc : FarmDoc) (gameState : StoredGameState) :
  loadFarm w account farmId = Some doc →
  ∃ w', updateGameState w farmId (docSession doc) gameState = Some w'
        ∧ persisted w' farmId = Some gameState
        ∧ docSession <$> farms w' !! farmId = Some (newSession w (docSession doc))
        ∧ eventStore w' = eventStore w.
Proof.
  unfold loadFarm, updateGameState. intros Hload.
  destruct (farms w !! farmId) as [found|]; [|done]. simpl in *.
  destruct (decide (ownerOf (chain w) farmId = account)); [|done].
  injection Hload as ->. rewrite decide_True by done.
  eexists. split; [reflexivity|]. unfold persisted. simpl.
  by rewrite lookup_insert_eq.
Qed.

(** The pipeline of section 4.6 on a farm that loads: the replay runs on
    the reconciled state, and a batch that is accepted is persisted as the
    serialized result of that replay. *)
Lemma save_outcome (L : Limits) (now : Z) (w : World) (farmId : Z)
    (account : string) (actions : list Action) (doc : FarmDoc)
    (loaded state : GameState) :
  loadFarm w account farmId = Some doc →
  makeGame c (docGameState doc) = Some loaded →
  reconcile c (loadBalance (chain w) account) (loadInventory (chain w) account)
    loaded = Some state →
  match processActions L c now state actions with
  | Ok state' =>
      ∃ w', save L c now w farmId account actions = (Ok state', w')
            ∧ persisted w' farmId = Some (serialize state')
  | Err e => save L c now w farmId account actions = (Err e, w)
  end.
Proof.
  intros Hdoc Hgame Hstate. unfold save. rewrite Hdoc, Hgame, Hstate.
  destruct (processActions L c now state actions) as [state'|e]; [|done].
  destruct (updateGameState_loaded w account farmId doc (serialize state') Hdoc)
    as (w' & -> & Hpersisted & _).
  eexists. split; [reflexivity|]. exact Hpersisted.
Qed.


End Reconcile.



(** ** Withdraw handler *)

Section WithdrawHandler.

Import Withdraw.

Context (c : Catalog) (env : Env).

Lemma VALID_IDS_spec (id : Z) :
  Some id ∈ VALID_IDS c ↔
  ∃ name, (name ∈ TOOLS c ∨ name ∈ LimitedItems c ∨ name ∈ RESOURCES c)
          ∧ knownId c name = Some id.
Proof.
  unfold VALID_IDS, VALID_ITEMS. rewrite list_elem_of_fmap.
  setoid_rewrite elem_of_app. setoid_rewrite elem_of_app. naive_solver.
Qed.

Lemma validate_None (body : WithdrawBody) :
  validate c body = None ↔ Forall (fun id => Some id ∈ VALID_IDS c) (ids body).
Proof.
  unfold validate. rewrite fmap_None, head_None.
  induction (ids body) as [|id rest IH].
  - split; [constructor | done].
  - rewrite filter_cons, Forall_cons. destruct (decide (Some id ∉ VALID_IDS c)) as [Hout|Hin].
    + split; [done | tauto].
    + apply dec_stable in Hin. rewrite IH. tauto.
Qed.

Lemma validate_Some (body : WithdrawBody) (e : HandlerError) :
  validate c body = Some e →
  ∃ id, e = SchemaError id ∧ id ∈ ids body ∧ Some id ∉ VALID_IDS c.
Proof.
  unfold validate. intros (id & Hhead & ->)%fmap_Some.
  exists id. split; [done|].
  apply head_Some_elem_of, list_elem_of_filter in Hhead. tauto.
Qed.


End WithdrawHandler.


(** ** Withdraw handler: the whole schema *)

Section WithdrawSchema.

Context (c : Catalog) (env : Withdraw.Env).

Implicit Types (body : Withdraw.WithdrawBody).

Lemma network_is_mumbai :
  String.eqb (Withdraw.NETWORK env) "mumbai" = true ↔ Withdraw.NETWORK env = "mumbai".
Proof. apply String.eqb_eq. Qed.

Lemma idItems_outcome (ids : list Z) :
  match Endpoint.idItems c ids with
  | None => Forall (fun id => Some id ∈ Withdraw.VALID_IDS c) ids
  | Some failure =>
      ∃ index id,
        failure = Endpoint.IdNotAllowed index id
        ∧ ids !! index = Some id
        ∧ (Some id ∉ Withdraw.VALID_IDS c)
        ∧ Forall (fun id => Some id ∈ Withdraw.VALID_IDS c) (take index ids)
  end.
Proof.
  unfold Endpoint.idItems.
  destruct (list_find _ ids) as [[index id]|] eqn:Hfind; simpl.
  - apply list_find_Some in Hfind as (Hid & Hout & Hbefore).
    exists index, id. repeat split; try done.
    apply Forall_lookup. intros j x [Hx Hlt]%lookup_take_Some.
    apply dec_stable. by apply (Hbefore j x).
  - apply list_find_None in Hfind. eapply Forall_impl; [exact Hfind|].
    intros id Hid. by apply dec_stable.
Qed.

Lemma amountItems_outcome (amounts : list string) :
  match Endpoint.amountItems amounts with
  | None => Forall (fun amount => amount ≠ EmptyString) amounts
  | Some failure =>
      ∃ index,
        failure = Endpoint.EmptyAmount index
        ∧ amounts !! index = Some EmptyString
        ∧ Forall (fun amount => amount ≠ EmptyString) (take index amounts)
  end.
Proof.
  unfold Endpoint.amountItems.
  destruct (list_find _ amounts) as [[index amount]|] eqn:Hfind; simpl.
  - apply list_find_Some in Hfind as (Hamount & -> & Hbefore).
    exists index. repeat split; try done.
    apply Forall_lookup. intros j x [Hx Hlt]%lookup_take_Some.
    by apply (Hbefore j x).
  - by apply list_find_None in Hfind.
Qed.

Local Ltac earlier_keys :=
  let key := fresh "key" in
  let Hlt := fresh "Hlt" in
  intros key Hlt; destruct key; simpl in Hlt |- *; try lia; done.

(** The schema passes a well-formed request, and otherwise reports the
    first key, in its order, whose value fails. *)
Lemma schema_outcome body :
  match Endpoint.schema c body with
  | None => Endpoint.wellFormed c body
  | Some failure =>
      ¬ Endpoint.passes c body (Endpoint.failedKey failure)
      ∧ (∀ key,
           (Endpoint.keyIndex key < Endpoint.keyIndex (Endpoint.failedKey failure))%nat →
           Endpoint.passes c body key)
      ∧ Endpoint.reported c body failure
  end.
Proof.
  unfold Endpoint.schema, Endpoint.requiredString, Endpoint.requiredNumber.
  destruct (decide (Withdraw.sessionId body = EmptyString)) as [Hsession|Hsession]; simpl.
  { split; [by intros Hpass|]. split; [earlier_keys | set_solver]. }
  destruct (decide (- Endpoint.MAX_SAFE_INTEGER <= Withdraw.farmId body
                    <= Endpoint.MAX_SAFE_INTEGER)) as [Hfarm|Hfarm]; simpl.
  2: { split; [done|]. split; [earlier_keys | done]. }
  destruct (decide (Withdraw.sender body = EmptyString)) as [Hsender|Hsender]; simpl.
  { split; [by intros Hpass|]. split; [earlier_keys | set_solver]. }
  destruct (decide (Withdraw.signature body = EmptyString)) as [Hsig|Hsig]; simpl.
  { split; [by intros Hpass|]. split; [earlier_keys | set_solver]. }
  destruct (decide (Withdraw.sfl body = EmptyString)) as [Hsfl|Hsfl]; simpl.
  { split; [by intros Hpass|]. split; [earlier_keys | set_solver]. }
  pose proof (idItems_outcome (Withdraw.ids body)) as Hids.
  destruct (Endpoint.idItems c (Withdraw.ids body)) as [failure|]; simpl.
  { destruct Hids as (index & id & -> & Hid & Hout & Hbefore). simpl.
    split; [|split; [earlier_keys | done]].
    intros Hall. rewrite Forall_forall in Hall. apply Hout, Hall.
    by eapply list_elem_of_lookup_2. }
  pose proof (amountItems_outcome (Withdraw.amounts body)) as Hamounts.
  destruct (Endpoint.amountItems (Withdraw.amounts body)) as [failure|]; simpl.
  { destruct Hamounts as (index & -> & Hamount & Hbefore). simpl.
    split; [|split; [earlier_keys | done]].
    intros Hall. rewrite Forall_forall in Hall.
    by apply (Hall EmptyString); [eapply list_elem_of_lookup_2|]. }
  by intros [].
Qed.

Lemma schema_None body :
  Endpoint.schema c body = None ↔ Endpoint.wellFormed c body.
Proof.
  pose proof (schema_outcome body) as Houtcome. split.
  - intros Hnone. by rewrite Hnone in Houtcome.
  - intros Hwell. destruct (Endpoint.schema c body) as [failure|]; [|done].
    destruct Houtcome as (Hfails & _). by destruct (Hfails (Hwell _)).
Qed.

Lemma head_filter_list_find {A} (P : A → Prop) `{!∀ x, Decision (P x)} (l : list A) :
  head (filter P l) = snd <$> list_find P l.
Proof.
  induction l as [|x l IH]; [done|]. rewrite filter_cons. simpl.
  destruct (decide (P x)); [done|]. rewrite IH.
  by destruct (list_find P l) as [[]|].
Qed.

(** On a request whose other keys pass the schema, the handler with the
    [ids] key alone and the handler with the whole schema agree. *)
Lemma handler_agrees body :
  (∀ key, key ≠ Endpoint.KIds → Endpoint.passes c body key) →
  (Endpoint.handler c env (Some body)).2 = (Withdraw.handler c env (Some body)).2
  ∧ match (Withdraw.handler c env (Some body)).1,
          (Endpoint.handler c env (Some body)).1 with
    | Ok response, Ok response' => response = response'
    | Err (Withdraw.SchemaError id),
      Err (Endpoint.ValidationError (Endpoint.IdNotAllowed _ id')) => id = id'
    | Err Withdraw.AccountNotVerified, Err Endpoint.AccountNotVerified => True
    | Err Withdraw.NotOnWhitelist, Err Endpoint.NotOnWhitelist => True
    | _, _ => False
    end.
Proof.
  intros Hkeys.
  pose proof (Hkeys Endpoint.KSessionId ltac:(done)) as Hsession.
  pose proof (Hkeys Endpoint.KFarmId ltac:(done)) as Hfarm.
  pose proof (Hkeys Endpoint.KSender ltac:(done)) as Hsender.
  pose proof (Hkeys Endpoint.KSignature ltac:(done)) as Hsig.
  pose proof (Hkeys Endpoint.KSfl ltac:(done)) as Hsfl.
  pose proof (Hkeys Endpoint.KAmounts ltac:(done)) as Hamounts.
  simpl in Hsession, Hfarm, Hsender, Hsig, Hsfl, Hamounts.
  unfold Endpoint.handler, Withdraw.handler, Endpoint.schema, Withdraw.validate,
    Endpoint.requiredString, Endpoint.requiredNumber.
  rewrite decide_False by done. rewrite decide_True by done.
  rewrite !decide_False by done. simpl.
  pose proof (amountItems_outcome (Withdraw.amounts body)) as Hnone.
  destruct (Endpoint.amountItems (Withdraw.amounts body)) as [failure|].
  { destruct Hnone as (index & _ & Hempty & _). rewrite Forall_forall in Hamounts.
    by destruct (Hamounts EmptyString); [eapply list_elem_of_lookup_2|]. }
  rewrite head_filter_list_find. unfold Endpoint.idItems.
  destruct (list_find _ (Withdraw.ids body)) as [[index id]|]; simpl; [done|].
  destruct (Withdraw.verifyAccount env _ _); simpl; [|done].
  by destruct (negb _ && negb _).
Qed.

(** The whole schema refuses what its [ids] key refuses: a request is
    signed only when every id is in [VALID_IDS], and a request with an id
    outside the list fails the validation before the signer is called. *)
Lemma endpoint_ids_validated body :
  (∀ response calls,
     Endpoint.handler c env (Some body) = (Ok response, calls) →
     Forall (fun id => Some id ∈ Withdraw.VALID_IDS c) (Withdraw.ids body))
  ∧ (Exists (fun id => Some id ∉ Withdraw.VALID_IDS c) (Withdraw.ids body) →
     ∃ failure,
       Endpoint.handler c env (Some body)
       = (Err (Endpoint.ValidationError failure), [])).
Proof.
  unfold Endpoint.handler. pose proof (schema_outcome body) as Hschema.
  destruct (Endpoint.schema c body) as [failure|]; split; try done.
  - intros _. by eexists.
  - intros _ _ _. apply (Hschema Endpoint.KIds).
  - intros Hex. apply Exists_exists in Hex as (id & Hin & Hout).
    pose proof (Hschema Endpoint.KIds) as Hall. simpl in Hall.
    rewrite Forall_forall in Hall. by destruct (Hout (Hall id Hin)).
Qed.

(** C8, as amended. The handler does not compare [ids.length] with
    [amounts.length]. It answers with the signer's response exactly when the
    request passes the schema (no empty [sessionId], [sender], [signature] or
    [sfl], a safe [farmId], every id in [VALID_IDS], no empty amount), the
    account verifies and the sender may sync; the signer then receives the
    ids and the amounts as sent, whatever their lengths. *)
Theorem withdraw_lengths_unchecked body :
  ((∃ response calls, Endpoint.handler c env (Some body) = (Ok response, calls)) ↔
   Endpoint.wellFormed c body
   ∧ Withdraw.verifyAccount env (Withdraw.sender body) (Withdraw.signature body) = true
   ∧ (Withdraw.NETWORK env = "mumbai"
      ∨ Withdraw.canSync env (Withdraw.sender body) = true))
  ∧ (Endpoint.wellFormed c body →
     Withdraw.verifyAccount env (Withdraw.sender body) (Withdraw.signature body) = true →
     Withdraw.NETWORK env = "mumbai" ∨ Withdraw.canSync env (Withdraw.sender body) = true →
     ∃ payload,
       Endpoint.handler c env (Some body)
         = (Ok (Withdraw.withdrawSignature env payload), [payload])
       ∧ Withdraw.p_ids payload = Withdraw.ids body
       ∧ Withdraw.p_amounts payload = Withdraw.amounts body
       ∧ Withdraw.p_sender payload = Withdraw.sender body
       ∧ Withdraw.p_farmId payload = Withdraw.farmId body
       ∧ Withdraw.p_sessionId payload = Withdraw.sessionId body
       ∧ Withdraw.p_sfl payload = Withdraw.sfl body
       ∧ Withdraw.p_tax payload = Withdraw.getTax env (Withdraw.sfl body)).
Proof.
  assert (Endpoint.wellFormed c body →
          Withdraw.verifyAccount env (Withdraw.sender body) (Withdraw.signature body) = true →
          Withdraw.NETWORK env = "mumbai" ∨ Withdraw.canSync env (Withdraw.sender body) = true →
          Endpoint.handler c env (Some body)
          = (Ok (Withdraw.withdrawSignature env (payloadOf env body)), [payloadOf env body]))
    as Hsigns.
  { intros Hwell%schema_None Hverify Hsync. unfold Endpoint.handler.
    rewrite Hwell, Hverify. simpl.
    assert (negb (String.eqb (Withdraw.NETWORK env) "mumbai")
            && negb (Withdraw.canSync env (Withdraw.sender body)) = false) as ->.
    { destruct Hsync as [-> | ->]; [done|]. by rewrite andb_false_r. }
    done. }
  split; [split|].
  - intros (response & calls & Hrun). unfold Endpoint.handler in Hrun.
    destruct (Endpoint.schema c body) as [failure|] eqn:Hschema; [done|].
    apply schema_None in Hschema. split; [exact Hschema|].
    destruct (Withdraw.verifyAccount env _ _); simpl in Hrun; [|done].
    split; [done|].
    destruct (String.eqb (Withdraw.NETWORK env) "mumbai") eqn:Hnet; simpl in Hrun.
    + left. by apply network_is_mumbai.
    + right. by destruct (Withdraw.canSync env _).
  - intros (Hwell & Hverify & Hsync). rewrite (Hsigns Hwell Hverify Hsync).
    by eexists _, _.
  - intros Hwell Hverify Hsync. exists (payloadOf env body).
    split; [by apply Hsigns|]. done.
Qed.

End WithdrawSchema.

Lemma UNEVEN_REQUEST_wellFormed : Endpoint.wellFormed SAMPLE_CATALOG UNEVEN_REQUEST.
Proof.
  intros []; simpl; try done;
    try (split; vm_compute; discriminate);
    apply (bool_decide_unpack _); by vm_compute.
Qed.

Lemma withdraw_lengths_unchecked_witness :
  ∃ payload,
    Endpoint.handler SAMPLE_CATALOG SAMPLE_ENV (Some UNEVEN_REQUEST)
      = (Ok "0xsigned", [payload])
    ∧ Withdraw.p_ids payload = [301]
    ∧ Withdraw.p_amounts payload = [].
Proof.
  destruct (withdraw_lengths_unchecked SAMPLE_CATALOG SAMPLE_ENV UNEVEN_REQUEST)
    as (_ & Hsigns).
  destruct Hsigns as (payload & Hrun & Hids & Hamounts & _).
  - exact UNEVEN_REQUEST_wellFormed.
  - reflexivity.
  - right. reflexivity.
  - exists payload. by split.
Defined.

(** C8 as stated fails: a request with one id and no amount is answered
    with the signer's response, and the signer receives the two arrays of
    different lengths. *)
Lemma withdraw_lengths_counterexample :
  length (Withdraw.ids UNEVEN_REQUEST) ≠ length (Withdraw.amounts UNEVEN_REQUEST)
  ∧ ∃ payload,
      Endpoint.handler SAMPLE_CATALOG SAMPLE_ENV (Some UNEVEN_REQUEST)
        = (Ok "0xsigned", [payload])
      ∧ length (Withdraw.p_ids payload) ≠ length (Withdraw.p_amounts payload).
Proof.
  split; [by vm_compute|]. eexists. split; [by vm_compute|]. by vm_compute.
Qed.

(** A request with an empty [sfl] fails the schema before the signer. *)
Example empty_sfl_rejected :
  Endpoint.handler SAMPLE_CATALOG SAMPLE_ENV (Some EMPTY_SFL_REQUEST)
  = (Err (Endpoint.ValidationError (Endpoint.EmptyValue Endpoint.KSfl)), []).
Proof. vm_compute. reflexivity. Qed.

(** ** Token constructor *)

(** C9. The constructor's assignment writes the storage variable [team]
    into the parameter [_team]: whatever the arguments [_game] and [_team],
    [team] is the zero address after construction, and so is the parameter;
    the deployer has the game role and owns the contract. *)
Theorem constructor_leaves_team_zero (msg_sender : Z) (p : Token.Params) :
  Token.team (Token.constructor msg_sender p).1 = 0
  ∧ Token._team (Token.constructor msg_sender p).2 = 0
  ∧ Token._game (Token.constructor msg_sender p).2 = Token._game p
  ∧ Token.gameRoles (Token.constructor msg_sender p).1 !! msg_sender = Some true
  ∧ Token.owner (Token.constructor msg_sender p).1 = msg_sender.
Proof.
  unfold Token.constructor. simpl. repeat split.
  apply lookup_insert_eq.
Qed.

Lemma assignTeam_ignores_argument (s : Token.Storage) (p q : Token.Params) :
  Token._game p = Token._game q → Token.assignTeam s p = Token.assignTeam s q.
Proof. unfold Token.assignTeam. by intros ->. Qed.

(** ** [makeGame] *)

Section MakeGame.

Context (c : Catalog).

Lemma convertTree_initial (t : Tree) : convertTree (initialDbTree t) = Some t.
Proof. by destruct t. Qed.

Lemma convertTrees_initial :
  convertTrees (initialDbTree <$> INITIAL_TREES c) = Some (INITIAL_TREES c).
Proof.
  unfold convertTrees. rewrite decide_True.
  - f_equal. apply map_eq. intros i. rewrite lookup_omap, lookup_fmap.
    destruct (INITIAL_TREES c !! i) as [t|]; simpl; [|done].
    apply convertTree_initial.
  - intros i t. rewrite lookup_fmap.
    intros (t0 & _ & ->)%fmap_Some. rewrite convertTree_initial. by eexists.
Qed.

Lemma convertTrees_Some (stored : gmap Z DbTree) (converted : gmap Z Tree) :
  convertTrees stored = Some converted →
  ∀ i, converted !! i = stored !! i ≫= convertTree.
Proof.
  unfold convertTrees. case_decide; [|done]. intros [= <-] i.
  apply lookup_omap.
Qed.

Lemma convertTrees_total (stored : gmap Z DbTree) :
  map_Forall (fun _ t => is_Some (newDecimal (dbWood t))) stored →
  is_Some (convertTrees stored).
Proof.
  intros Hall. unfold convertTrees. rewrite decide_True; [by eexists|].
  intros i t Ht. destruct (Hall i t Ht) as [w Hw].
  unfold convertTree. rewrite Hw. by eexists.
Qed.

Lemma convertQuantities_total (m : gmap string string) :
  map_Forall (fun _ s => is_Some (quantityOrZero s)) m →
  is_Some (convertQuantities m).
Proof. intros Hall. unfold convertQuantities. rewrite decide_True by done. by eexists. Qed.

Lemma makeGame_trees_Some (gameState : StoredGameState) (state : GameState) :
  makeGame c gameState = Some state →
  convertTrees (dbTreesOf c gameState) = Some (trees state).
Proof.
  unfold makeGame.
  destruct (convertQuantities (sInventory gameState)); [|done]. simpl.
  destruct (convertQuantities (sStock gameState)); [|done]. simpl.
  destruct (convertTrees (dbTreesOf c gameState)); [|done]. simpl.
  destruct (parseDecimal (sBalance gameState)); [|done]. simpl.
  by intros [= <-].
Qed.

(** C10. For a stored game state without a [trees] field, [makeGame]
    returns a game state whose trees are [INITIAL_TREES]. When trees are
    stored, the trees of the result have the stored indices, each entry
    with the stored [choppedAt] and with the stored wood string parsed as
    a [Decimal]. [makeGame] returns whenever the stored balance, the
    quantities and the wood strings are decimal literals. *)
Theorem makeGame_trees (gameState : StoredGameState) :
  (∀ state,
     makeGame c gameState = Some state →
     (sTrees gameState = None → trees state = INITIAL_TREES c)
     ∧ (∀ stored, sTrees gameState = Some stored →
          (∀ i, stored !! i = None → trees state !! i = None)
          ∧ (∀ i t, stored !! i = Some t →
               ∃ w, newDecimal (dbWood t) = Some w
                    ∧ trees state !! i = Some (mkTree (dbChoppedAt t) w))
          ∧ (∀ i t s, stored !! i = Some t → dbWood t = FromString s →
               ∃ w, parseDecimal s = Some w
                    ∧ trees state !! i = Some (mkTree (dbChoppedAt t) w))))
  ∧ (is_Some (parseDecimal (sBalance gameState)) →
     map_Forall (fun _ s => is_Some (quantityOrZero s)) (sInventory gameState) →
     map_Forall (fun _ s => is_Some (quantityOrZero s)) (sStock gameState) →
     (∀ stored, sTrees gameState = Some stored →
        map_Forall (fun _ t => is_Some (newDecimal (dbWood t))) stored) →
     is_Some (makeGame c gameState)).
Proof.
  split.
  - intros state Hmake. apply makeGame_trees_Some in Hmake.
    unfold dbTreesOf in Hmake. split.
    + intros Hnone. rewrite Hnone, convertTrees_initial in Hmake. congruence.
    + intros stored Hstored. rewrite Hstored in Hmake.
      pose proof (convertTrees_Some _ _ Hmake) as Hlookup.
      assert (∀ i t, stored !! i = Some t →
                ∃ w, newDecimal (dbWood t) = Some w
                     ∧ trees state !! i = Some (mkTree (dbChoppedAt t) w)) as Hentry.
      { intros i t Ht. specialize (Hlookup i). rewrite Ht in Hlookup. simpl in Hlookup.
        unfold convertTrees in Hmake. case_decide as Hall; [|done].
        destruct (Hall i t Ht) as [tree Htree]. unfold convertTree in *.
        destruct (newDecimal (dbWood t)) as [w|]; [|done].
        exists w. by split. }
      split; [|split; [exact Hentry|]].
      * intros i Hi. by rewrite Hlookup, Hi.
      * intros i t s Ht Hs. destruct (Hentry i t Ht) as (w & Hw & Htree).
        rewrite Hs in Hw. by exists w.
  - intros [bal Hbal] Hinv Hstock Htrees. unfold makeGame.
    destruct (convertQuantities_total _ Hinv) as [inv ->].
    destruct (convertQuantities_total _ Hstock) as [stk ->]. simpl.
    assert (is_Some (convertTrees (dbTreesOf c gameState))) as [trs ->].
    { unfold dbTreesOf. destruct (sTrees gameState) as [stored|].
      - by apply convertTrees_total, Htrees.
      - rewrite convertTrees_initial. by eexists. }
    simpl. rewrite Hbal. by eexists.
Qed.

End MakeGame.

Lemma makeGame_trees_witness :
  ∃ state,
    makeGame SAMPLE_CATALOG JEST_GAME_STATE = Some state
    ∧ trees state = INITIAL_TREES SAMPLE_CATALOG.
Proof.
  destruct (makeGame_trees SAMPLE_CATALOG JEST_GAME_STATE) as [Htrees Htotal].
  destruct Htotal as [state Hstate].
  - by eexists.
  - apply (bool_decide_unpack _). by vm_compute.
  - apply (bool_decide_unpack _). by vm_compute.
  - intros stored Hstored. discriminate Hstored.
  - exists state. split; [exact Hstate|].
    by apply (Htrees state Hstate).
Defined.

(** A stored tree with wood "2.5" chopped at [T0] *)
Example makeGame_stored_tree :
  trees <$> makeGame SAMPLE_CATALOG
              (mkStored "20" ∅ ∅ ∅ (Some {[ 1 := mkDbTree T0 (FromString "2.5") ]}))
  = Some {[ 1 := mkTree T0 (sfl 2500) ]}.
Proof. vm_compute. reflexivity. Qed.

(** ** The remaining cases of the jest suite and scenarios of the
    specification, run on the model *)

(** "processes multiple events": a seed planted a minute ago is harvested. *)
Example jest_processes_multiple_events :
  (fun state => (qty (inventory state) "Sunflower",
                 qty (inventory state) "Sunflower Seed", fields state !! 4))
    <$> (match processActions SAMPLE_LIMITS SAMPLE_CATALOG T0 SEED_FARM
                 [mkAction (T0 - 60 * 1000) (ItemPlanted 4 "Sunflower Seed");
                  mkAction T0 (ItemHarvested 4)]
         with Ok state => Some state | Err _ => None end)
  = Some (ofInt 1, 0, None).
Proof. vm_compute. reflexivity. Qed.

(** "throws an error if the farm does not exist" *)
Example jest_farm_does_not_exist :
  save SAMPLE_LIMITS SAMPLE_CATALOG T0 (mkWorld ∅ [] JEST_CHAIN NEXT_SESSION)
    13 ACCOUNT []
  = (Err FarmNotFound, mkWorld ∅ [] JEST_CHAIN NEXT_SESSION)
  ∧ message FarmNotFound = "Farm does not exist".
Proof. split; [reflexivity | vm_compute; reflexivity]. Qed.

(** "ensures events are in order" *)
Example jest_events_in_order :
  processActions SAMPLE_LIMITS SAMPLE_CATALOG T0 SEED_FARM JEST_UNORDERED
  = Err TemporalOrder.
Proof. vm_compute. reflexivity. Qed.

(** Tree chop recovery: a tree without wood that was chopped 150 minutes ago
    is refilled and chopped. *)
Example tree_chop_recovery :
  (fun state => (trees state !! 0, qty (inventory state) "Wood",
                 qty (inventory state) "Axe"))
    <$> (match processActions SAMPLE_LIMITS SAMPLE_CATALOG T0
                 (mkGame 0 {[ "Axe" := ofInt 1 ]} ∅ ∅
                    {[ 0 := mkTree (T0 - 150 * 60 * 1000) 0 ]})
                 [mkAction T0 (TreeChopped 0)]
         with Ok state => Some state | Err _ => None end)
  = Some (Some (mkTree (T0 - 150 * 60 * 1000) (ofInt 2)), ofInt 1, 0).
Proof. vm_compute. reflexivity. Qed.

(** Decimal strings of the suite read back as the same decimals. *)
Example decimal_strings :
  decimalToString <$> parseDecimal "19.9" = Some "19.9"
  ∧ decimalToString (ofInt 20 - sfl 20 * 5) = "19.9"
  ∧ parseDecimal "120" = Some (fromWei 120000000000000000000 ether).
Proof. repeat split; vm_compute; reflexivity. Qed.

(** A craft with an ingredient: 2 Pickaxe at 1 SFL and 5 Wood each, from
    12 Wood, 5 SFL and a stock of 3. *)
Example craft_with_ingredient :
  (fun state => (balance state, qty (inventory state) "Wood",
                 qty (inventory state) "Pickaxe", stock state !! "Pickaxe"))
    <$> (match craft SAMPLE_CATALOG
                 (mkGame (ofInt 5) {[ "Wood" := ofInt 12 ]}
                    {[ "Pickaxe" := ofInt 3 ]} ∅ ∅) "Pickaxe" 2
         with Ok state => Some state | Err _ => None end)
  = Some (ofInt 3, ofInt 2, ofInt 2, Some (ofInt 1)).
Proof. vm_compute. reflexivity. Qed.

(** Without enough Wood the same craft fails and names the ingredient. *)
Example craft_without_ingredient :
  craft SAMPLE_CATALOG
    (mkGame (ofInt 5) {[ "Wood" := ofInt 9 ]} {[ "Pickaxe" := ofInt 3 ]} ∅ ∅)
    "Pickaxe" 2
  = Err (InsufficientInventory "Wood").
Proof. vm_compute. reflexivity. Qed.

(** * Further properties of the sources *)

(** ** [makeGame]: balance, inventory and stock *)

Section MakeGameQuantities.

Context (c : Catalog).

Lemma convertQuantities_Some (m : gmap string string) (r : gmap string Decimal) :
  convertQuantities m = Some r →
  (∀ name, r !! name = m !! name ≫= quantityOrZero)
  ∧ (∀ name s, m !! name = Some s → is_Some (quantityOrZero s)).
Proof.
  unfold convertQuantities. case_decide as Hall; [|done]. intros [= <-]. split.
  - intros name. apply lookup_omap.
  - intros name s Hs. by apply (Hall name s).
Qed.

Lemma convertQuantities_None (m : gmap string string) :
  convertQuantities m = None ↔
  ∃ name s, m !! name = Some s ∧ quantityOrZero s = None.
Proof.
  unfold convertQuantities. case_decide as Hall; split.
  - done.
  - intros (name & s & Hs & Hnone). destruct (Hall name s Hs) as [d Hd]. congruence.
  - intros _. apply map_not_Forall in Hall; [|apply _].
    apply map_Exists_lookup in Hall as (name & s & Hs & Hnot).
    exists name, s. split; [done|]. by apply eq_None_not_Some.
  - done.
Qed.

Lemma convertTrees_None (m : gmap Z DbTree) :
  convertTrees m = None ↔
  ∃ i t, m !! i = Some t ∧ newDecimal (dbWood t) = None.
Proof.
  unfold convertTrees. case_decide as Hall; split.
  - done.
  - intros (i & t & Ht & Hnone). destruct (Hall i t Ht) as [tree Htree].
    unfold convertTree in Htree. by rewrite Hnone in Htree.
  - intros _. apply map_not_Forall in Hall; [|apply _].
    apply map_Exists_lookup in Hall as (i & t & Ht & Hnot).
    exists i, t. split; [done|].
    destruct (newDecimal (dbWood t)) as [w|] eqn:Hw; [|done].
    exfalso. apply Hnot. unfold convertTree. rewrite Hw. by eexists.
  - done.
Qed.

Lemma quantityOrZero_None (s : string) :
  quantityOrZero s = None ↔ s ≠ EmptyString ∧ parseDecimal s = None.
Proof. unfold quantityOrZero. case_decide; naive_solver. Qed.

(** X1. [makeGame] converts the inventory and the stock entry for entry:
    the result has the stored keys and no others, each with its string read
    as a [Decimal], the empty string as zero; an entry that reads as zero is
    kept. The balance is the stored balance string read as a [Decimal] and
    the fields are carried over as stored. *)
Theorem makeGame_quantities (gameState : StoredGameState) (state : GameState) :
  makeGame c gameState = Some state →
  (∀ name s, sInventory gameState !! name = Some s →
     ∃ d, inventory state !! name = Some d
          ∧ if decide (s = EmptyString) then d = 0 else parseDecimal s = Some d)
  ∧ (∀ name, sInventory gameState !! name = None → inventory state !! name = None)
  ∧ (∀ name s, sStock gameState !! name = Some s →
       ∃ d, stock state !! name = Some d
            ∧ if decide (s = EmptyString) then d = 0 else parseDecimal s = Some d)
  ∧ (∀ name, sStock gameState !! name = None → stock state !! name = None)
  ∧ parseDecimal (sBalance gameState) = Some (balance state)
  ∧ fields state = sFields gameState.
Proof.
  unfold makeGame.
  destruct (convertQuantities (sInventory gameState)) as [inv|] eqn:Hinv; [|done].
  destruct (convertQuantities (sStock gameState)) as [stk|] eqn:Hstk; [|done].
  simpl.
  destruct (convertTrees (dbTreesOf c gameState)) as [trs|]; [|done]. simpl.
  destruct (parseDecimal (sBalance gameState)) as [bal|]; [|done]. simpl.
  intros [= <-]. simpl.
  apply convertQuantities_Some in Hinv as [Hinv Hinv'].
  apply convertQuantities_Some in Hstk as [Hstk Hstk'].
  assert (∀ (m : gmap string string) (r : gmap string Decimal),
            (∀ name, r !! name = m !! name ≫= quantityOrZero) →
            (∀ name s, m !! name = Some s → is_Some (quantityOrZero s)) →
            (∀ name s, m !! name = Some s →
               ∃ d, r !! name = Some d
                    ∧ if decide (s = EmptyString) then d = 0
                      else parseDecimal s = Some d)
            ∧ (∀ name, m !! name = None → r !! name = None)) as Hconv.
  { intros m r Hlookup Hsome. split.
    - intros name s Hs. destruct (Hsome name s Hs) as [d Hd].
      exists d. rewrite Hlookup, Hs. simpl. split; [done|].
      unfold quantityOrZero in Hd. case_decide; congruence.
    - intros name Hnone. by rewrite Hlookup, Hnone. }
  destruct (Hconv _ _ Hinv Hinv') as [? ?].
  destruct (Hconv _ _ Hstk Hstk') as [? ?].
  done.
Qed.

(** X2. [makeGame] throws exactly when one of its [new Decimal] calls
    throws: on the balance, on a quantity of the inventory or the stock that
    is not the empty string, or on the wood of a stored tree. The fallback
    to zero covers the quantities only: an empty balance string throws. *)
Theorem makeGame_throws (gameState : StoredGameState) :
  (makeGame c gameState = None ↔
     parseDecimal (sBalance gameState) = None
     ∨ (∃ name s, sInventory gameState !! name = Some s
                  ∧ s ≠ EmptyString ∧ parseDecimal s = None)
     ∨ (∃ name s, sStock gameState !! name = Some s
                  ∧ s ≠ EmptyString ∧ parseDecimal s = None)
     ∨ (∃ stored i t, sTrees gameState = Some stored ∧ stored !! i = Some t
                      ∧ newDecimal (dbWood t) = None))
  ∧ parseDecimal EmptyString = None
  ∧ quantityOrZero EmptyString = Some 0.
Proof.
  split; [|done].
  assert (convertTrees (dbTreesOf c gameState) = None ↔
          ∃ stored i t, sTrees gameState = Some stored ∧ stored !! i = Some t
                        ∧ newDecimal (dbWood t) = None) as Htrees.
  { unfold dbTreesOf. destruct (sTrees gameState) as [stored|].
    - rewrite convertTrees_None. naive_solver.
    - rewrite convertTrees_initial. naive_solver. }
  pose proof (convertQuantities_None (sInventory gameState)) as Hinv.
  pose proof (convertQuantities_None (sStock gameState)) as Hstk.
  setoid_rewrite quantityOrZero_None in Hinv.
  setoid_rewrite quantityOrZero_None in Hstk.
  unfold makeGame.
  destruct (convertQuantities (sInventory gameState)) as [inv|]; simpl.
  2: { split; [intros _|done]. right; left. by apply Hinv. }
  destruct (convertQuantities (sStock gameState)) as [stk|]; simpl.
  2: { split; [intros _|done]. right; right; left. by apply Hstk. }
  destruct (convertTrees (dbTreesOf c gameState)) as [trs|]; simpl.
  2: { split; [intros _|done]. right; right; right. by apply Htrees. }
  destruct (parseDecimal (sBalance gameState)) as [bal|]; simpl.
  2: { split; [intros _; by left|done]. }
  split; [done|].
  intros [Hb|[Hi|[Hs|Ht]]]; [done| | |].
  - by apply Hinv in Hi.
  - by apply Hstk in Hs.
  - by apply Htrees in Ht.
Qed.

End MakeGameQuantities.

Lemma makeGame_quantities_witness :
  ∃ state,
    makeGame SAMPLE_CATALOG JEST_GAME_STATE = Some state
    ∧ stock state !! "Potato Seed" = Some (ofInt 7)
    ∧ balance state = ofInt 20.
Proof.
  assert (makeGame SAMPLE_CATALOG JEST_GAME_STATE = Some JEST_STATE) as Hmake
    by (vm_compute; reflexivity).
  destruct (makeGame_quantities SAMPLE_CATALOG JEST_GAME_STATE JEST_STATE Hmake)
    as (_ & _ & Hstock & _ & Hbal & _).
  exists JEST_STATE. split; [exact Hmake|]. split.
  - destruct (Hstock "Potato Seed" "7") as (d & Hd & Hparse); [reflexivity|].
    rewrite Hd. f_equal. rewrite decide_False in Hparse by done.
    vm_compute in Hparse. injection Hparse as <-. reflexivity.
  - apply (inj Some). rewrite <- Hbal. vm_compute. reflexivity.
Defined.

Lemma makeGame_throws_witness :
  makeGame SAMPLE_CATALOG (mkStored EmptyString {[ "Sunflower" := EmptyString ]} ∅ ∅ None)
  = None
  ∧ is_Some (makeGame SAMPLE_CATALOG
               (mkStored "0" {[ "Sunflower" := EmptyString ]} ∅ ∅ None)).
Proof.
  split.
  - apply (makeGame_throws SAMPLE_CATALOG). left. reflexivity.
  - destruct (makeGame SAMPLE_CATALOG
                (mkStored "0" {[ "Sunflower" := EmptyString ]} ∅ ∅ None)) eqn:Hmake;
      [by eexists|].
    apply (makeGame_throws SAMPLE_CATALOG) in Hmake.
    destruct Hmake as [Hb|[(name & s & Hs & Hne & _)|[(name & s & Hs & _)|(st & i & t & Ht & _)]]].
    + by vm_compute in Hb.
    + simpl in Hs. apply lookup_singleton_Some in Hs as [_ <-]. done.
    + simpl in Hs. by rewrite lookup_empty in Hs.
    + discriminate Ht.
Defined.

(** ** [makeInventory] *)

Section MakeInventory.

Context (c : Catalog).

(** X3. Under distinct catalog keys and at most one amount per key, the
    inventory [makeInventory] returns holds exactly the items whose on-chain
    amount is not zero, each with that amount in the item's unit: it has no
    entry for an item that is zero or missing on-chain, no entry under any
    other name, and never an entry of zero. *)
Theorem makeInventory_entries (amounts : list string) (items : gmap string Decimal) :
  NoDup (inventoryItems c) →
  (length amounts <= length (inventoryItems c))%nat →
  makeInventory c amounts = Some items →
  ∀ name value,
    items !! name = Some value ↔
    ∃ i amount w,
      inventoryItems c !! i = Some name
      ∧ amounts !! i = Some amount
      ∧ parseWei amount = Some w
      ∧ value = fromWei w (getItemUnit c (Some name))
      ∧ value ≠ 0.
Proof.
  intros Hnodup Hlen Hmake name value.
  destruct (makeInventory_lookup c amounts items Hnodup Hlen Hmake) as [Hin Hout].
  split.
  - intros Hvalue. destruct (decide (name ∈ inventoryItems c)) as [Hname|Hname].
    + apply list_elem_of_lookup_1 in Hname as [i Hi].
      rewrite (Hin i name Hi) in Hvalue. unfold onchainValue in Hvalue.
      destruct (amounts !! i) as [amount|] eqn:Hamount; [|done]. simpl in Hvalue.
      destruct (parseWei amount) as [w|] eqn:Hw; [|done]. simpl in Hvalue.
      case_decide as Hzero; [done|]. injection Hvalue as <-.
      by exists i, amount, w.
    + by rewrite (Hout name Hname) in Hvalue.
  - intros (i & amount & w & Hi & Hamount & Hw & -> & Hzero).
    rewrite (Hin i name Hi). unfold onchainValue. rewrite Hamount. simpl.
    rewrite Hw. simpl. by rewrite decide_False.
Qed.

Lemma makeInventoryStep_zero (r : option (gmap string Decimal)) (i : nat)
    (amount : string) :
  parseWei amount = Some 0 → makeInventoryStep c r (i, amount) = r.
Proof.
  intros Hzero. unfold makeInventoryStep. destruct r as [items|]; [|done]. simpl.
  rewrite Hzero. simpl.
  destruct (getItemUnit c (inventoryItems c !! i)); by rewrite decide_True.
Qed.

(** X4. Amounts of zero at the end of the on-chain array change nothing:
    the array cut after its last non-zero amount converts to the same
    inventory, and an array of zeros converts to the empty inventory. *)
Theorem makeInventory_trailing_zeros (amounts zeros : list string) :
  Forall (fun amount => parseWei amount = Some 0) zeros →
  makeInventory c (amounts ++ zeros) = makeInventory c amounts
  ∧ makeInventory c zeros = Some ∅.
Proof.
  intros Hzeros.
  assert (∀ prefix, makeInventory c (prefix ++ zeros) = makeInventory c prefix) as Hpad.
  { intros prefix. induction zeros as [|zero zeros IH] using rev_ind.
    - by rewrite app_nil_r.
    - apply Forall_app in Hzeros as [Hzeros Hzero].
      apply Forall_inv in Hzero. simpl in Hzero.
      rewrite app_assoc, makeInventory_snoc.
      rewrite (makeInventoryStep_zero _ _ _ Hzero).
      by apply IH. }
  split; [apply Hpad|]. exact (Hpad []).
Qed.

End MakeInventory.

Lemma makeInventory_entries_witness :
  ∃ items,
    makeInventory SAMPLE_CATALOG ["1"; "0"; "3"] = Some items
    ∧ items !! "Sunflower Seed" = Some 1
    ∧ items !! "Potato Seed" = None
    ∧ items !! "Sunflower" = Some 3.
Proof.
  destruct (makeInventory SAMPLE_CATALOG ["1"; "0"; "3"]) as [items|] eqn:Hmake;
    [|by vm_compute in Hmake].
  assert (NoDup (inventoryItems SAMPLE_CATALOG)) as Hnodup.
  { apply (bool_decide_unpack _). by vm_compute. }
  assert (length ["1"; "0"; "3"] <= length (inventoryItems SAMPLE_CATALOG))%nat
    as Hlen by (simpl; lia).
  pose proof (makeInventory_entries SAMPLE_CATALOG ["1"; "0"; "3"] items
                Hnodup Hlen Hmake) as Hentries.
  exists items. split; [done|]. split; [|split].
  - apply Hentries. exists 0%nat, "1", 1. by repeat split.
  - destruct (items !! "Potato Seed") as [value|] eqn:Hvalue; [|done].
    apply Hentries in Hvalue as (i & amount & w & Hi & Hamount & Hw & -> & Hzero).
    destruct i as [|[|[|i]]]; simpl in Hi, Hamount; simplify_eq.
    vm_compute in Hw. injection Hw as <-. by destruct Hzero.
  - apply Hentries. exists 2%nat, "3", 3. by repeat split.
Defined.

Lemma makeInventory_trailing_zeros_witness :
  makeInventory SAMPLE_CATALOG (["1"; "2"] ++ ["0"; "00"; "0"])
  = makeInventory SAMPLE_CATALOG ["1"; "2"].
Proof.
  apply (makeInventory_trailing_zeros SAMPLE_CATALOG).
  repeat constructor.
Defined.

(** ** Withdraw handler: the order of the checks *)

Section HandlerOutcome.

Context (c : Catalog) (env : Withdraw.Env).

(** X5. The handler checks the body, the schema, the account and the
    whitelist in this order and reports the first failure. A schema error
    names the first key, in the order of the schema, whose value fails: an
    empty string, a [farmId] that is no safe number, the first id outside
    [VALID_IDS] or the first empty amount. The account error means the
    request passed the schema, the whitelist error that the account verified
    as well. The signer is called once, with the request as sent and the tax
    of its [sfl], when every check passes, and is not called otherwise. *)
Theorem handler_checks_in_order (event_body : option Withdraw.WithdrawBody) :
  handlerOutcome c env event_body (Endpoint.handler c env event_body).
Proof.
  unfold handlerOutcome, Endpoint.handler.
  destruct event_body as [body|]; [|done].
  pose proof (schema_outcome c body) as Hschema.
  destruct (Endpoint.schema c body) as [failure|]; simpl.
  { destruct Hschema as (Hfails & Hbefore & Hreported). by exists body. }
  destruct (Withdraw.verifyAccount env (Withdraw.sender body)
              (Withdraw.signature body)) eqn:Hverify; simpl.
  2: { by exists body. }
  destruct (String.eqb (Withdraw.NETWORK env) "mumbai") eqn:Hnet; simpl.
  { apply network_is_mumbai in Hnet. exists body. repeat split; try done. by left. }
  assert (Withdraw.NETWORK env ≠ "mumbai") as Hnot.
  { intros Heq. apply network_is_mumbai in Heq. congruence. }
  destruct (Withdraw.canSync env (Withdraw.sender body)) eqn:Hsync; simpl.
  - exists body. repeat split; try done. by right.
  - by exists body.
Qed.

(** X6. Off the [mumbai] network a sender that [canSync] refuses is
    rejected with "Not on whitelist" although the request passes the schema
    and the account verifies, and nothing is signed. On [mumbai] the
    whitelist is not consulted: the same request is signed whatever
    [canSync] answers. *)
Theorem whitelist_gate (body : Withdraw.WithdrawBody) :
  Endpoint.wellFormed c body →
  Withdraw.verifyAccount env (Withdraw.sender body) (Withdraw.signature body) = true →
  (Withdraw.NETWORK env ≠ "mumbai" →
   Withdraw.canSync env (Withdraw.sender body) = false →
   Endpoint.handler c env (Some body) = (Err Endpoint.NotOnWhitelist, []))
  ∧ (Withdraw.NETWORK env = "mumbai" →
     Endpoint.handler c env (Some body)
     = (Ok (Withdraw.withdrawSignature env (payloadOf env body)), [payloadOf env body]))
  ∧ Endpoint.message Endpoint.NotOnWhitelist = Some "Not on whitelist".
Proof.
  intros Hwell%schema_None Hverify.
  unfold Endpoint.handler. rewrite Hwell, Hverify. simpl.
  split; [|split; [|done]].
  - intros Hnet Hsync. rewrite Hsync. simpl.
    destruct (String.eqb (Withdraw.NETWORK env) "mumbai") eqn:Heq; [|done].
    by apply network_is_mumbai in Heq.
  - intros Hnet. apply network_is_mumbai in Hnet. by rewrite Hnet.
Qed.

End HandlerOutcome.

Lemma handler_checks_in_order_witness :
  ∃ body,
    Some SEED_REQUEST = Some body
    ∧ ¬ Endpoint.passes SAMPLE_CATALOG body Endpoint.KIds
    ∧ (∀ key, (Endpoint.keyIndex key < 5)%nat → Endpoint.passes SAMPLE_CATALOG body key)
    ∧ (Withdraw.ids body !! 1%nat = Some 102
       ∧ (Some 102 ∉ Withdraw.VALID_IDS SAMPLE_CATALOG)
       ∧ Forall (fun id => Some id ∈ Withdraw.VALID_IDS SAMPLE_CATALOG)
           (take 1 (Withdraw.ids body)))
    ∧ (Endpoint.handler SAMPLE_CATALOG SAMPLE_ENV (Some SEED_REQUEST)).2 = [].
Proof.
  pose proof (handler_checks_in_order SAMPLE_CATALOG SAMPLE_ENV (Some SEED_REQUEST))
    as Houtcome.
  unfold handlerOutcome in Houtcome.
  replace (Endpoint.handler SAMPLE_CATALOG SAMPLE_ENV (Some SEED_REQUEST)).1
    with (@Err Endpoint.HandlerError string
            (Endpoint.ValidationError (Endpoint.IdNotAllowed 1 102))) in Houtcome
    by (vm_compute; reflexivity).
  exact Houtcome.
Defined.

Lemma whitelist_gate_witness :
  Endpoint.handler SAMPLE_CATALOG (CLOSED_ENV "mainnet") (Some UNEVEN_REQUEST)
  = (Err Endpoint.NotOnWhitelist, [])
  ∧ ∃ payload,
      Endpoint.handler SAMPLE_CATALOG (CLOSED_ENV "mumbai") (Some UNEVEN_REQUEST)
      = (Ok "0xsigned", [payload]).
Proof.
  split.
  - destruct (whitelist_gate SAMPLE_CATALOG (CLOSED_ENV "mainnet") UNEVEN_REQUEST
                UNEVEN_REQUEST_wellFormed eq_refl) as [Hreject _].
    apply Hreject; [discriminate | reflexivity].
  - destruct (whitelist_gate SAMPLE_CATALOG (CLOSED_ENV "mumbai") UNEVEN_REQUEST
                UNEVEN_REQUEST_wellFormed eq_refl) as (_ & Hsign & _).
    eexists. apply Hsign. reflexivity.
Defined.

(** ** [contracts/Token.sol]: the game role *)

Section GameRole.

Import SunflowerLandToken.

Context {E : Type} (erc : Inherited E).

Lemma asGame_without_role (caller : Z) (st : State E) (call : E → option E) :
  hasGameRole (storage st) caller = false → asGame caller st call = Err NotTheGame.
Proof. intros Hrole. unfold asGame. by rewrite Hrole. Qed.

Lemma hasGameRole_setRole (s : Token.Storage) (a b : Z) (role : bool) :
  hasGameRole (setRole s a role) b = if decide (b = a) then role else hasGameRole s b.
Proof.
  unfold hasGameRole, setRole. simpl. case_decide as Hab.
  - subst b. by rewrite lookup_insert_eq.
  - by rewrite lookup_insert_ne.
Qed.

(** X7. After construction the deployer is the one address with the game
    role. The constructor's [_game] argument gets none: a call to
    [gameMint], [gameBurn], [gameTransfer] or [gameApprove] by any address
    but the deployer reverts with "SunflowerLandToken: You are not the
    game", and the deployer's [gameMint] is the inherited [_mint]. *)
Theorem deployer_is_the_only_game (deployer : Z) (p : Token.Params) (initial : E)
    (caller : Z) :
  (hasGameRole (storage (deploy deployer p initial)) caller = true ↔ caller = deployer)
  ∧ (caller ≠ deployer →
     (∀ account amount,
        gameMint erc caller account amount (deploy deployer p initial) = Err NotTheGame)
     ∧ (∀ account amount,
          gameBurn erc caller account amount (deploy deployer p initial) = Err NotTheGame)
     ∧ (∀ from to amount,
          gameTransfer erc caller from to amount (deploy deployer p initial)
          = Err NotTheGame)
     ∧ (∀ spender amount,
          gameApprove erc caller spender amount (deploy deployer p initial)
          = Err NotTheGame))
  ∧ (∀ account amount,
       gameMint erc deployer account amount (deploy deployer p initial)
       = match _mint erc account amount initial with
         | Some l => Ok (mkState (storage (deploy deployer p initial)) l)
         | None => Err InheritedRevert
         end)
  ∧ revertReason NotTheGame = Some "SunflowerLandToken: You are not the game".
Proof.
  assert (∀ a, hasGameRole (storage (deploy deployer p initial)) a
               = bool_decide (a = deployer)) as Hrole.
  { intros a. unfold hasGameRole, deploy, Token.constructor. simpl.
    case_bool_decide as Ha.
    - subst a. by rewrite lookup_insert_eq.
    - by rewrite lookup_insert_ne, lookup_empty. }
  split; [|split; [|split; [|done]]].
  - rewrite Hrole. apply bool_decide_eq_true.
  - intros Hcaller.
    assert (hasGameRole (storage (deploy deployer p initial)) caller = false) as Hno.
    { rewrite Hrole. by apply bool_decide_eq_false. }
    unfold gameMint, gameBurn, gameTransfer, gameApprove.
    repeat split; intros; by rewrite asGame_without_role.
  - intros account amount. unfold gameMint, asGame.
    rewrite Hrole, bool_decide_eq_true_2 by done. done.
Qed.

(** X8. The owner grants and revokes the game role one address at a time:
    [addGameRole] gives it to its argument, [removeGameRole] takes it away,
    also from an address that held it before the grant, after which that
    address's game calls revert; the role of every other address, the owner,
    the team and the ledger stay as they were. A caller that is not the
    owner can change neither a role nor the team. *)
Theorem game_role_lifecycle (st : State E) (owner _game : Z) :
  Token.owner (storage st) = owner →
  (∃ st1 st2,
     addGameRole owner _game st = Ok st1
     ∧ hasGameRole (storage st1) _game = true
     ∧ removeGameRole owner _game st1 = Ok st2
     ∧ hasGameRole (storage st2) _game = false
     ∧ (∀ account amount, gameMint erc _game account amount st2 = Err NotTheGame)
     ∧ (∀ other, other ≠ _game →
          hasGameRole (storage st1) other = hasGameRole (storage st) other
          ∧ hasGameRole (storage st2) other = hasGameRole (storage st) other)
     ∧ Token.owner (storage st2) = owner
     ∧ Token.team (storage st2) = Token.team (storage st)
     ∧ ledger st2 = ledger st)
  ∧ (∀ caller _team,
       caller ≠ owner →
       addGameRole caller _game st = Err NotTheOwner
       ∧ removeGameRole caller _game st = Err NotTheOwner
       ∧ passTeamRole caller _team st = Err NotTheOwner).
Proof.
  intros Howner. split.
  - unfold addGameRole, removeGameRole. rewrite decide_True by done.
    eexists _, _. split; [reflexivity|]. simpl.
    rewrite decide_True by done.
    split; [by rewrite hasGameRole_setRole, decide_True|].
    split; [reflexivity|]. simpl.
    assert (hasGameRole (setRole (setRole (storage st) _game true) _game false) _game
            = false) as Hno by (by rewrite hasGameRole_setRole, decide_True).
    split; [exact Hno|]. split.
    { intros account amount. unfold gameMint. by rewrite asGame_without_role. }
    split; [|done].
    intros other Hother. by rewrite !hasGameRole_setRole, !decide_False.
  - intros caller _team Hcaller.
    unfold addGameRole, removeGameRole, passTeamRole, Token.passTeamRole.
    rewrite !decide_False by congruence. done.
Qed.

End GameRole.

Lemma deployer_is_the_only_game_witness :
  SunflowerLandToken.gameMint RECORDING_LEDGER 2 5 100
    (SunflowerLandToken.deploy 1 (Token.mkParams 2 3) [])
  = Err SunflowerLandToken.NotTheGame
  ∧ SunflowerLandToken.gameTransfer RECORDING_LEDGER 2 1 2 100
      (SunflowerLandToken.deploy 1 (Token.mkParams 2 3) [])
    = Err SunflowerLandToken.NotTheGame.
Proof.
  destruct (deployer_is_the_only_game RECORDING_LEDGER 1 (Token.mkParams 2 3) [] 2)
    as (_ & Hrevert & _).
  destruct Hrevert as (Hmint & _ & Htransfer & _); [lia|].
  split; [apply Hmint | apply Htransfer].
Defined.

Lemma game_role_lifecycle_witness :
  ∃ st1 st2,
    SunflowerLandToken.addGameRole 1 2
      (SunflowerLandToken.deploy 1 (Token.mkParams 2 3) ([] : list (string * list Z)))
    = Ok st1
    ∧ SunflowerLandToken.hasGameRole (SunflowerLandToken.storage st1) 2 = true
    ∧ SunflowerLandToken.removeGameRole 1 2 st1 = Ok st2
    ∧ SunflowerLandToken.hasGameRole (SunflowerLandToken.storage st2) 2 = false
    ∧ SunflowerLandToken.gameMint RECORDING_LEDGER 2 5 100 st2
      = Err SunflowerLandToken.NotTheGame.
Proof.
  destruct (game_role_lifecycle RECORDING_LEDGER
              (SunflowerLandToken.deploy 1 (Token.mkParams 2 3) []) 1 2 eq_refl)
    as [(st1 & st2 & Hadd & Hgranted & Hremove & Hrevoked & Hmint & _) _].
  exists st1, st2. repeat split; done.
Defined.

(** ** The temporal checks against the jest suite *)

Section SuiteThresholds.

Implicit Types (ts : list Z) (L : Limits).

(** The outcome of the gate is the one outcome whose description fits. *)
Lemma temporalGate_iff L now ts (r : option Error) :
  (∀ e, r = Some e → isTemporal e = true) →
  temporalGate L now ts = r ↔ gateOutcome L now ts r.
Proof.
  intros Hr. split; [intros <-; apply temporalGate_outcome|].
  intros Hfits. pose proof (temporalGate_outcome L now ts) as Hactual.
  destruct r as [e|].
  - specialize (Hr e eq_refl).
    destruct (temporalGate L now ts) as [e'|].
    + destruct e; try discriminate Hr; destruct e'; simpl in Hfits, Hactual;
        unfold passesBeforeGap in *; try done; tauto.
    + destruct e; try discriminate Hr; simpl in Hfits, Hactual;
        unfold passesBeforeGap, violatesGate in *; tauto.
  - destruct (temporalGate L now ts) as [e'|]; [|done].
    destruct e'; simpl in Hfits, Hactual;
      unfold passesBeforeGap, violatesGate in *; try done; tauto.
Qed.

Lemma outOfOrder_single (a : Z) : outOfOrder [a] ↔ False.
Proof.
  split; [|done]. intros (x & y & (i & Hx & Hy) & _). by destruct i.
Qed.

Lemma firedTooQuickly_single gap (a : Z) : firedTooQuickly gap [a] ↔ False.
Proof.
  split; [|done]. intros (x & y & (i & Hx & Hy) & _). by destruct i.
Qed.

Lemma windowExceeded_single w n (a : Z) :
  windowExceeded w n [a] ↔ n = 0%nat ∧ 0 < w.
Proof.
  unfold windowExceeded, inWindow. split.
  - intros (t & Ht). rewrite filter_cons, filter_nil in Ht.
    case_decide; simpl in Ht; lia.
  - intros [-> Hw]. exists a. rewrite filter_cons, filter_nil.
    rewrite decide_True by lia. simpl. lia.
Qed.

Lemma windowExceeded_pair w n (a b : Z) :
  a <= b →
  windowExceeded w n [a; b] ↔
  (n = 0%nat ∧ 0 < w) ∨ (n = 1%nat ∧ b - a < w).
Proof.
  intros Hab. unfold windowExceeded, inWindow. split.
  - intros (t & Ht). rewrite !filter_cons, filter_nil in Ht.
    repeat case_decide; simpl in Ht; lia.
  - intros [[-> Hw] | [-> Hw]]; exists a; rewrite !filter_cons, filter_nil.
    + rewrite decide_True by lia. case_decide; simpl; lia.
    + rewrite !decide_True by lia. simpl. lia.
Qed.

Lemma windowExceeded_triple w n (a b c : Z) :
  a <= b <= c →
  windowExceeded w n [a; b; c] ↔
  (n = 0%nat ∧ 0 < w)
  ∨ (n = 1%nat ∧ (b - a < w ∨ c - b < w))
  ∨ (n = 2%nat ∧ c - a < w).
Proof.
  intros Habc. unfold windowExceeded, inWindow. split.
  - intros (t & Ht). rewrite !filter_cons, filter_nil in Ht.
    repeat case_decide; simpl in Ht; lia.
  - intros [[-> Hw] | [[-> [Hw|Hw]] | [-> Hw]]].
    + exists a. rewrite !filter_cons, filter_nil.
      rewrite decide_True by lia. repeat case_decide; simpl; lia.
    + exists a. rewrite !filter_cons, filter_nil.
      rewrite !(decide_True (P := a <= a < _)) by lia.
      rewrite !(decide_True (P := a <= b < _)) by lia.
      case_decide; simpl; lia.
    + exists b. rewrite !filter_cons, filter_nil.
      rewrite !(decide_True (P := b <= b < _)) by lia.
      rewrite !(decide_True (P := b <= c < _)) by lia.
      case_decide; simpl; lia.
    + exists a. rewrite !filter_cons, filter_nil.
      rewrite !decide_True by lia. simpl. lia.
Qed.

(** X10. With the temporal checks of [processActions] as modelled, the
    outcomes the jest suite expects of its eight [processActions] cases hold
    together exactly when the future bound is in [0, 2 min), the age bound
    in [4 min, 10 min), the range bound in [1 min, 3 min), the minimum gap
    above 95 ms and at most 150 ms, and the density cap is one action with a
    window above 150 ms and at most one minute, or two actions with a window
    above 350 ms. *)
Theorem jest_suite_thresholds (L : Limits) :
  jest_suite L = true ↔
    0 <= MAX_FUTURE_MS L < 2 * 60 * 1000
    ∧ 4 * 60 * 1000 <= MAX_AGE_MS L < 10 * 60 * 1000
    ∧ 60 * 1000 <= MAX_RANGE_MS L < 3 * 60 * 1000
    ∧ 95 < MIN_GAP_MS L <= 150
    ∧ ((DENSITY_MAX_ACTIONS L = 1%nat ∧ 150 < DENSITY_WINDOW_MS L <= 60 * 1000)
       ∨ (DENSITY_MAX_ACTIONS L = 2%nat ∧ 350 < DENSITY_WINDOW_MS L)).
Proof.
  unfold jest_suite, gateIs. rewrite !andb_true_iff, !bool_decide_eq_true.
  rewrite !temporalGate_iff by (intros e; by (intros [= <-] || discriminate)).
  unfold gateOutcome, violatesGate, passesBeforeGap.
  unfold JEST_SINGLE, JEST_MULTIPLE, JEST_IN_ORDER, JEST_FUTURE, JEST_PAST,
    JEST_RANGE, JEST_QUICK, JEST_DENSE.
  rewrite !outOfOrder_single, !firedTooQuickly_single, !windowExceeded_single.
  rewrite !outOfOrder_pair, !firedTooQuickly_pair, !outOfOrder_triple,
    !firedTooQuickly_triple.
  rewrite (windowExceeded_pair _ _ (T0 - 60 * 1000) T0) by lia.
  rewrite (windowExceeded_triple _ _ (T0 - 400) (T0 - 250) (T0 - 50)) by lia.
  rewrite !(inFuture_iff L T0 [_] _ eq_refl), !(inFuture_iff L T0 [_; _] _ eq_refl),
    !(inFuture_iff L T0 [_; _; _] _ eq_refl).
  rewrite !(tooOld_iff L T0 [_] _ eq_refl), !(tooOld_iff L T0 [_; _] _ eq_refl),
    !(tooOld_iff L T0 [_; _; _] _ eq_refl).
  rewrite !(rangeTooLarge_iff L [_] _ _ eq_refl eq_refl),
    !(rangeTooLarge_iff L [_; _] _ _ eq_refl eq_refl),
    !(rangeTooLarge_iff L [_; _; _] _ _ eq_refl eq_refl).
  lia.
Qed.

End SuiteThresholds.

Lemma jest_suite_thresholds_witness :
  jest_suite
    (mkLimits (60 * 1000) (5 * 60 * 1000) (2 * 60 * 1000) 100 200 1) = true
  ∧ jest_suite SPEC_LIMITS ≠ true.
Proof.
  split.
  - apply jest_suite_thresholds. simpl. lia.
  - intros Hpass. apply jest_suite_thresholds in Hpass. simpl in Hpass. lia.
Defined.

(** ** [contracts/Token.sol]: sequences of calls *)

Section TokenTraces.

Import SunflowerLandToken.

Context {E : Type} (erc : Inherited E).

Lemma run_snoc (txs : list (Z * Call)) (tx : Z * Call) (st : State E) :
  run erc (txs ++ [tx]) st = transact erc (run erc txs st) tx.
Proof. unfold run. by rewrite foldl_app. Qed.

Lemma lastTeam_snoc (sender : Z) (txs : list (Z * Call)) (tx : Z * Call) :
  lastTeam sender (txs ++ [tx]) =
    match teamPassedBy sender tx with
    | Some _team => _team
    | None => lastTeam sender txs
    end.
Proof.
  unfold lastTeam. rewrite omap_app. simpl.
  destruct (teamPassedBy sender tx) as [_team|]; simpl.
  - by rewrite last_snoc.
  - by rewrite app_nil_r.
Qed.

Lemma asGame_storage (caller : Z) (st st' : State E) (f : E → option E) :
  asGame caller st f = Ok st' → storage st' = storage st.
Proof.
  unfold asGame. destruct (hasGameRole _ _); [|done].
  destruct (f (ledger st)); [|done]. by intros [= <-].
Qed.

(** What a transaction does to the contract's own storage. *)
Lemma transact_storage (st : State E) (tx : Z * Call) :
  storage (transact erc st tx) =
    if decide (tx.1 = Token.owner (storage st))
    then match tx.2 with
         | AddGameRole _game => setRole (storage st) _game true
         | RemoveGameRole _game => setRole (storage st) _game false
         | PassTeamRole _team =>
             Token.mkStorage (Token.name (storage st)) (Token.symbol (storage st))
               (Token.owner (storage st)) (Token.paused (storage st))
               (Token.gameRoles (storage st)) _team
         | _ => storage st
         end
    else storage st.
Proof.
  destruct tx as [sender f]. unfold transact, call. simpl.
  destruct f; simpl;
    unfold addGameRole, removeGameRole, passTeamRole, Token.passTeamRole,
      gameMint, gameBurn, gameTransfer, gameApprove.
  1-3: by repeat case_decide; simpl; try congruence.
  all: match goal with
       | |- context [asGame ?s ?st ?f] =>
           destruct (asGame s st f) as [st'|] eqn:Hrun;
             [apply asGame_storage in Hrun; rewrite Hrun|]
       end; by case_decide.
Qed.

Lemma run_invariant (deployer : Z) (p : Token.Params) (initial : E)
    (txs : list (Z * Call)) :
  Token.owner (storage (run erc txs (deploy deployer p initial))) = deployer
  ∧ Token.team (storage (run erc txs (deploy deployer p initial)))
    = lastTeam deployer txs
  ∧ ∀ a, hasGameRole (storage (run erc txs (deploy deployer p initial))) a = true →
         a = deployer ∨ (deployer, AddGameRole a) ∈ txs.
Proof.
  induction txs as [|tx txs IH] using rev_ind.
  - split; [done|]. split; [done|]. intros a Ha. left.
    unfold hasGameRole, run, deploy, Token.constructor in Ha. simpl in Ha.
    destruct (decide (a = deployer)) as [->|Hne]; [done|].
    by rewrite lookup_insert_ne, lookup_empty in Ha.
  - destruct IH as (Howner & Hteam & Hroles).
    rewrite run_snoc, transact_storage, Howner, lastTeam_snoc.
    destruct tx as [sender f]. unfold teamPassedBy. simpl.
    destruct (decide (sender = deployer)) as [->|Hsender].
    + destruct f; simpl; (split; [done|]); (split; [done|]); intros a Ha;
        try (destruct (Hroles a Ha) as [?|?]; [by left | right; set_solver]).
      * rewrite hasGameRole_setRole in Ha. case_decide as Hag.
        -- subst a. right. set_solver.
        -- destruct (Hroles a Ha) as [?|?]; [by left | right; set_solver].
      * rewrite hasGameRole_setRole in Ha. case_decide as Hag; [done|].
        destruct (Hroles a Ha) as [?|?]; [by left | right; set_solver].
    + split; [done|]. split.
      * by destruct f.
      * intros a Ha. destruct (Hroles a Ha) as [?|?]; [by left | right; set_solver].
Qed.

Lemma omap_teamPassedBy_nil (sender : Z) (txs : list (Z * Call)) :
  Forall (fun tx => teamPassedBy sender tx = None) txs →
  omap (teamPassedBy sender) txs = [].
Proof.
  induction txs as [|tx txs IH]; [done|].
  intros [Htx Htxs]%Forall_cons. simpl. rewrite Htx. by apply IH.
Qed.

(** X9. Over any sequence of calls to the functions the contract declares,
    made by any callers after construction, the team address is the one the
    deployer last passed with [passTeamRole], and zero as long as it passed
    none; and an address holds the game role only if it is the deployer or
    the deployer granted it with [addGameRole]. Calls by other addresses and
    reverted calls change neither. *)
Theorem token_calls_invariant (deployer : Z) (p : Token.Params) (initial : E)
    (txs : list (Z * Call)) :
  Token.team (storage (run erc txs (deploy deployer p initial)))
  = lastTeam deployer txs
  ∧ (Forall (fun tx => teamPassedBy deployer tx = None) txs →
     Token.team (storage (run erc txs (deploy deployer p initial))) = 0)
  ∧ ∀ a, hasGameRole (storage (run erc txs (deploy deployer p initial))) a = true →
         a = deployer ∨ (deployer, AddGameRole a) ∈ txs.
Proof.
  destruct (run_invariant deployer p initial txs) as (_ & Hteam & Hroles).
  split; [exact Hteam|]. split; [|exact Hroles].
  intros Hnone. rewrite Hteam. unfold lastTeam.
  by rewrite (omap_teamPassedBy_nil deployer txs Hnone).
Qed.

End TokenTraces.

Lemma token_calls_invariant_witness :
  Token.team
    (SunflowerLandToken.storage
       (SunflowerLandToken.run RECORDING_LEDGER
          [(2, SunflowerLandToken.PassTeamRole 9);
           (1, SunflowerLandToken.GameMint 5 100);
           (2, SunflowerLandToken.AddGameRole 2)]
          (SunflowerLandToken.deploy 1 (Token.mkParams 2 3) [])))
  = 0.
Proof.
  destruct (token_calls_invariant RECORDING_LEDGER 1 (Token.mkParams 2 3) []
              [(2, SunflowerLandToken.PassTeamRole 9);
               (1, SunflowerLandToken.GameMint 5 100);
               (2, SunflowerLandToken.AddGameRole 2)]) as (_ & Hzero & _).
  apply Hzero. repeat constructor.
Defined.
